(** * UIPC: the socket multiplexer of system/udrv/ulinux/uipc.cc

    A shallow embedding of the channel table, the descriptor sets and the
    operations of uipc.cc, and the properties of the specification that
    were checked against it.

    The operating system is modelled by explicit answers handed to each
    operation (what socket, accept, poll, recv, write and select return)
    and by a trace of the observable actions the code performs: system
    calls that change something and callback invocations. *)

From Stdlib Require Import ZArith Lia List.
From stdpp Require Import base decidable list gmap sets.

Open Scope Z_scope.

(** ** Constants and types of the headers *)

(** Modelled from the spec: uipc.h is not under src/.  The spec fixes two
    channels, a control channel and a data channel, and a sentinel that
    addresses all channels at once; the numbering is the ascending order in
    which the event loop scans them. *)
Definition UIPC_CH_ID_AV_CTRL : nat := 0.
Definition UIPC_CH_ID_AV_AUDIO : nat := 1.
Definition UIPC_CH_NUM : nat := 2.
Definition UIPC_CH_ID_ALL : nat := 3.

(** Modelled from the spec: the default read timeout of uipc.h; only its
    being a fixed value matters here. *)
Definition DEFAULT_READ_POLL_TMO_MS : Z := 100.

(** Modelled from the spec: the event vocabulary of uipc.h, two members of
    which are never emitted by uipc.cc. *)
Inductive tUIPC_EVENT :=
| UIPC_OPEN_EVT
| UIPC_CLOSE_EVT
| UIPC_RX_DATA_EVT
| UIPC_RX_DATA_READY_EVT
| UIPC_TX_DATA_READY_EVT.

(** Modelled from the spec: the ioctl requests of uipc.h.  The request is an
    unsigned number in the source; every value that is none of the four
    known requests takes the default branch and is [UIPC_REQ_OTHER]. *)
Inductive tUIPC_REQUEST :=
| UIPC_REQ_RX_FLUSH
| UIPC_REG_CBACK
| UIPC_REG_REMOVE_ACTIVE_READSET
| UIPC_SET_READ_POLL_TMO
| UIPC_REQ_OTHER (n : Z).

(** The two socket names of audio_a2dp_hw.h, kept symbolic. *)
Inductive socket_name := A2DP_CTRL_PATH | A2DP_DATA_PATH.

Definition UIPC_DISCONNECTED : Z := -1.
Definition UIPC_FLUSH_BUFFER_SIZE : Z := 1024.
Definition UIPC_TASK_FLAG_DISCONNECT_CHAN : Z := 1.

(** Bits of [revents] (sys/poll.h). *)
Definition POLLIN : Z := 1.
Definition POLLERR : Z := 8.
Definition POLLHUP : Z := 16.
Definition POLLNVAL : Z := 32.

(** Conversions between the integer types of the source. *)
Definition to_int (z : Z) : Z := (z + 2 ^ 31) mod 2 ^ 32 - 2 ^ 31.
Definition to_uint32 (z : Z) : Z := z mod 2 ^ 32.

(** ** The data model *)

(** [tUIPC_CHAN].  A callback is a code address, 0 being NULL. *)
Record tUIPC_CHAN := mkChan {
  srvfd : Z;
  fd : Z;
  read_poll_tmo_ms : Z;
  task_evt_flags : Z;
  cback : Z
}.

(** What the code does that can be observed from outside. *)
Inductive action :=
| SysSocket (name : socket_name) (ret : Z)
| SysClose (d : Z)
| SysAccept (s ret : Z)
| SysSetsockopt (d : Z)
| SysSendSignal
| SysRecvSignal
| SysWrite (d len ret : Z)
| SysRecv (d count ret : Z)
| SysRead (d count : Z)
| Callback (cb : Z) (ch_id : nat) (ev : tUIPC_EVENT).

(** [tUIPC_MAIN], followed by the two parts of the outside world the claims
    speak about: the number of bytes queued in the wakeup socket pair and the
    trace of actions.  The thread id and the mutex are not modelled: every
    operation below runs as one atomic step.

    The channel table is indexed by a natural number, the channel id being
    unsigned in the source.  The source indexes [ch] without a bounds check
    in several places; entries from [UIPC_CH_NUM] on stand for the storage
    that lies behind the table. *)
Record state := mkState {
  running : Z;
  active_set : gset Z;
  read_set : gset Z;
  max_fd : Z;
  signal_fds : Z * Z;
  ch : nat -> tUIPC_CHAN;
  pipe : nat;
  trace : list action
}.

Definition set_running (v : Z) (w : state) : state :=
  mkState v (active_set w) (read_set w) (max_fd w) (signal_fds w) (ch w)
          (pipe w) (trace w).
Definition set_active_set (v : gset Z) (w : state) : state :=
  mkState (running w) v (read_set w) (max_fd w) (signal_fds w) (ch w)
          (pipe w) (trace w).
Definition set_read_set (v : gset Z) (w : state) : state :=
  mkState (running w) (active_set w) v (max_fd w) (signal_fds w) (ch w)
          (pipe w) (trace w).
Definition set_max_fd (v : Z) (w : state) : state :=
  mkState (running w) (active_set w) (read_set w) v (signal_fds w) (ch w)
          (pipe w) (trace w).
Definition set_pipe (v : nat) (w : state) : state :=
  mkState (running w) (active_set w) (read_set w) (max_fd w) (signal_fds w)
          (ch w) v (trace w).
Definition emit (a : action) (w : state) : state :=
  mkState (running w) (active_set w) (read_set w) (max_fd w) (signal_fds w)
          (ch w) (pipe w) (trace w ++ [a]).

(** [uipc_main.ch[i] = f (uipc_main.ch[i])] *)
Definition upd_ch (i : nat) (f : tUIPC_CHAN -> tUIPC_CHAN) (w : state) : state :=
  mkState (running w) (active_set w) (read_set w) (max_fd w) (signal_fds w)
          (fun j => if Nat.eqb j i then f (ch w i) else ch w j)
          (pipe w) (trace w).

Definition with_srvfd (v : Z) (c : tUIPC_CHAN) : tUIPC_CHAN :=
  mkChan v (fd c) (read_poll_tmo_ms c) (task_evt_flags c) (cback c).
Definition with_fd (v : Z) (c : tUIPC_CHAN) : tUIPC_CHAN :=
  mkChan (srvfd c) v (read_poll_tmo_ms c) (task_evt_flags c) (cback c).
Definition with_tmo (v : Z) (c : tUIPC_CHAN) : tUIPC_CHAN :=
  mkChan (srvfd c) (fd c) v (task_evt_flags c) (cback c).
Definition with_flags (v : Z) (c : tUIPC_CHAN) : tUIPC_CHAN :=
  mkChan (srvfd c) (fd c) (read_poll_tmo_ms c) v (cback c).
Definition with_cback (v : Z) (c : tUIPC_CHAN) : tUIPC_CHAN :=
  mkChan (srvfd c) (fd c) (read_poll_tmo_ms c) (task_evt_flags c) v.

(** The descriptor-set macros, on the descriptors of their range (see
    [FD_SETSIZE] below). *)
Definition FD_SET (d : Z) (s : gset Z) : gset Z := {[ d ]} ∪ s.
Definition FD_CLR (d : Z) (s : gset Z) : gset Z := s ∖ {[ d ]}.
Definition FD_ISSET (d : Z) (s : gset Z) : bool := bool_decide (d ∈ s).
Definition SAFE_FD_ISSET (d : Z) (s : gset Z) : bool :=
  if Z.eqb d (-1) then false else FD_ISSET d s.

(** Invoke the callback of a channel when one is registered.  The callback
    is code of the user of the channel; its invocation is recorded, what it
    does is not part of uipc.cc. *)
Definition call_cback (ch_id : nat) (ev : tUIPC_EVENT) (w : state) : state :=
  if Z.eqb (cback (ch w ch_id)) 0 then w
  else emit (Callback (cback (ch w ch_id)) ch_id ev) w.

(** ** Socket helpers *)

(** What socket, bind and listen answer. *)
Record srv_io := mkSrvIo { io_socket : Z; io_bind : Z; io_listen : Z }.

Definition create_server_socket (name : socket_name) (io : srv_io) (w : state)
  : state * Z :=
  let s := io_socket io in
  if s <? 0 then (w, -1)
  else
    let w := emit (SysSocket name s) w in
    if io_bind io <? 0 then (emit (SysClose s) w, -1)
    else if io_listen io <? 0 then (emit (SysClose s) w, -1)
    else (w, s).

(** What poll, accept and setsockopt answer.  A call interrupted by a signal
    is repeated by OSI_NO_INTR; the answer is that of the call that was not
    interrupted. *)
Record acc_io := mkAccIo { io_poll : Z; io_accept : Z; io_setsockopt : Z }.

Definition accept_server_socket (sfd : Z) (io : acc_io) (w : state) : state * Z :=
  if io_poll io =? 0 then (w, -1)
  else
    let d := io_accept io in
    let w := emit (SysAccept sfd d) w in
    if d =? -1 then (w, -1)
    else (emit (SysSetsockopt d) w, d).

(** ** uipc helper functions *)

(** [behind] is the content of the storage behind the table, which the
    initialisation does not touch. *)
Definition uipc_main_init (sp_ret : Z) (sp : Z * Z) (behind : nat -> tUIPC_CHAN)
  : state * Z :=
  let cleared i := if (i <? UIPC_CH_NUM)%nat then mkChan 0 0 0 0 0 else behind i in
  let w := mkState 0 ∅ ∅ 0 (0, 0) cleared 0 [] in
  if sp_ret <? 0 then (w, -1)
  else
    let w := mkState 0 (FD_SET (fst sp) ∅) ∅ (Z.max 0 (fst sp)) sp
                     (fun i => if (i <? UIPC_CH_NUM)%nat
                               then mkChan UIPC_DISCONNECTED UIPC_DISCONNECTED 0 0 0
                               else behind i) 0 [] in
    (w, 0).

(** One byte is sent on the write end of the socket pair; the queue of the
    socket pair is taken to have room for it. *)
Definition uipc_wakeup_locked (w : state) : state :=
  emit SysSendSignal (set_pipe (S (pipe w)) w).

(** One byte is received from the read end when select reported it. *)
Definition uipc_check_interrupt_locked (w : state) : state :=
  if SAFE_FD_ISSET (fst (signal_fds w)) (read_set w)
  then emit SysRecvSignal (set_pipe (Nat.pred (pipe w)) w)
  else w.

Definition uipc_close_ch_locked (ch_id : nat) (w : state) : state * Z :=
  if (UIPC_CH_NUM <=? ch_id)%nat then (w, -1)
  else
    let '(w, wakeup) :=
      if negb (srvfd (ch w ch_id) =? UIPC_DISCONNECTED) then
        let s := srvfd (ch w ch_id) in
        let w := emit (SysClose s) w in
        let w := set_active_set (FD_CLR s (active_set w)) w in
        (upd_ch ch_id (with_srvfd UIPC_DISCONNECTED) w, true)
      else (w, false) in
    let '(w, wakeup) :=
      if negb (fd (ch w ch_id) =? UIPC_DISCONNECTED) then
        let d := fd (ch w ch_id) in
        let w := emit (SysClose d) w in
        let w := set_active_set (FD_CLR d (active_set w)) w in
        (upd_ch ch_id (with_fd UIPC_DISCONNECTED) w, true)
      else (w, wakeup) in
    let w := call_cback ch_id UIPC_CLOSE_EVT w in
    let w := if wakeup then uipc_wakeup_locked w else w in
    (w, 0).

Definition uipc_main_cleanup (w : state) : state :=
  let w := emit (SysClose (fst (signal_fds w))) w in
  let w := emit (SysClose (snd (signal_fds w))) w in
  foldl (fun w i => fst (uipc_close_ch_locked i w)) w (seq 0 UIPC_CH_NUM).

(** The body of the loop of uipc_check_task_flags_locked. *)
Definition check_task_flag (w : state) (i : nat) : state :=
  if negb (Z.land (task_evt_flags (ch w i)) UIPC_TASK_FLAG_DISCONNECT_CHAN =? 0)
  then
    let w := upd_ch i (fun c => with_flags
                (Z.land (task_evt_flags c)
                        (Z.lnot UIPC_TASK_FLAG_DISCONNECT_CHAN)) c) w in
    fst (uipc_close_ch_locked i w)
  else w.

Definition uipc_check_task_flags_locked (w : state) : state :=
  foldl check_task_flag w (seq 0 UIPC_CH_NUM).

(** The second half of uipc_check_fd_locked: data on the peer endpoint. *)
Definition check_rx (ch_id : nat) (w : state) : state * Z :=
  (if SAFE_FD_ISSET (fd (ch w ch_id)) (read_set w)
   then call_cback ch_id UIPC_RX_DATA_READY_EVT w
   else w, 0).

Definition uipc_check_fd_locked (ch_id : nat) (io : acc_io) (w : state)
  : state * Z :=
  if (UIPC_CH_NUM <=? ch_id)%nat then (w, -1)
  else if SAFE_FD_ISSET (srvfd (ch w ch_id)) (read_set w) then
    let '(w, d) := accept_server_socket (srvfd (ch w ch_id)) io w in
    let w := upd_ch ch_id (with_fd d) w in
    let w :=
      if (0 <? d) && negb (cback (ch w ch_id) =? 0) then
        let w := set_active_set (FD_SET d (active_set w)) w in
        set_max_fd (Z.max (max_fd w) d) w
      else w in
    if d <? 0 then (w, -1)
    else check_rx ch_id (call_cback ch_id UIPC_OPEN_EVT w)
  else check_rx ch_id w.

Definition uipc_setup_server_locked (ch_id : nat) (name : socket_name)
    (p_cback : Z) (io : srv_io) (w : state) : state * Z :=
  if (UIPC_CH_NUM <=? ch_id)%nat then (w, -1)
  else
    let '(w, d) := create_server_socket name io w in
    if d <? 0 then (w, -1)
    else
      let w := set_active_set (FD_SET d (active_set w)) w in
      let w := set_max_fd (Z.max (max_fd w) d) w in
      let w := upd_ch ch_id (with_srvfd d) w in
      let w := upd_ch ch_id (with_cback p_cback) w in
      let w := upd_ch ch_id (with_tmo DEFAULT_READ_POLL_TMO_MS) w in
      (uipc_wakeup_locked w, 0).

(** What poll answers in the flush loop. *)
Record fl_io := mkFlIo { fl_poll : Z; fl_revents : Z }.

(** The [while (1)] loop of uipc_flush_ch_locked.  The script holds the
    answers of the successive poll calls; a run that asks for more answers
    than the script holds has no result. *)
Fixpoint flush_loop (d : Z) (script : list fl_io) (w : state) : option state :=
  match script with
  | [] => None
  | io :: rest =>
      if fl_poll io =? 0 then Some w
      else if fl_poll io <? 0 then Some w
      else if negb (Z.land (fl_revents io) (Z.lor POLLERR POLLHUP) =? 0) then Some w
      else flush_loop d rest (emit (SysRead d UIPC_FLUSH_BUFFER_SIZE) w)
  end.

Definition uipc_flush_ch_locked (ch_id : nat) (script : list fl_io) (w : state)
  : option state :=
  if fd (ch w ch_id) =? UIPC_DISCONNECTED then Some w
  else flush_loop (fd (ch w ch_id)) script w.

Definition uipc_flush_locked (ch_id : nat) (script : list fl_io) (w : state)
  : option state :=
  if (UIPC_CH_NUM <=? ch_id)%nat then Some w
  else if (ch_id =? UIPC_CH_ID_AV_CTRL)%nat
       then uipc_flush_ch_locked UIPC_CH_ID_AV_CTRL script w
  else if (ch_id =? UIPC_CH_ID_AV_AUDIO)%nat
       then uipc_flush_ch_locked UIPC_CH_ID_AV_AUDIO script w
  else Some w.

Definition uipc_close_locked (ch_id : nat) (w : state) : state :=
  if srvfd (ch w ch_id) =? UIPC_DISCONNECTED then w
  else
    let w := upd_ch ch_id (fun c => with_flags
                (Z.lor (task_evt_flags c) UIPC_TASK_FLAG_DISCONNECT_CHAN) c) w in
    uipc_wakeup_locked w.

(** ** The event loop *)

(** select reports the members of the set it is given that are ready and
    below [nfds]. *)
Definition select (nfds : Z) (set ready : gset Z) : gset Z :=
  filter (fun d => d < nfds) (set ∩ ready).

(** One turn of the [while (uipc_main.running)] loop of uipc_read_task.
    [sel] is [None] when select fails and otherwise the set of descriptors
    that are ready; [io] holds the answers to the accept on each channel. *)
Definition uipc_read_task_iter (sel : option (gset Z)) (io : nat -> acc_io)
    (w : state) : state :=
  let w := set_read_set (active_set w) w in
  match sel with
  | None => w
  | Some ready =>
      let w := set_read_set (select (max_fd w + 1) (read_set w) ready) w in
      if (size (read_set w) =? 0)%nat then w
      else
        let w := uipc_check_interrupt_locked w in
        let w := uipc_check_task_flags_locked w in
        let w := fst (uipc_check_fd_locked UIPC_CH_ID_AV_AUDIO
                                           (io UIPC_CH_ID_AV_AUDIO) w) in
        foldl (fun w ch_id =>
                 if negb (ch_id =? UIPC_CH_ID_AV_AUDIO)%nat
                 then fst (uipc_check_fd_locked ch_id (io ch_id) w)
                 else w)
              w (seq 0 UIPC_CH_NUM)
  end.

Definition uipc_stop_main_server_thread (w : state) : state :=
  uipc_wakeup_locked (set_running 0 w).

(** ** The control interface *)

Definition UIPC_Open (ch_id : nat) (p_cback : Z) (io : srv_io) (w : state)
  : state * bool :=
  if (UIPC_CH_NUM <=? ch_id)%nat then (w, false)
  else if negb (srvfd (ch w ch_id) =? UIPC_DISCONNECTED) then (w, false)
  else
    let w :=
      if (ch_id =? UIPC_CH_ID_AV_CTRL)%nat
      then fst (uipc_setup_server_locked ch_id A2DP_CTRL_PATH p_cback io w)
      else if (ch_id =? UIPC_CH_ID_AV_AUDIO)%nat
      then fst (uipc_setup_server_locked ch_id A2DP_DATA_PATH p_cback io w)
      else w in
    (w, true).

(** The caller's part of UIPC_Close; joining the thread is not modelled. *)
Definition UIPC_Close (ch_id : nat) (w : state) : state :=
  if negb (ch_id =? UIPC_CH_ID_ALL)%nat then uipc_close_locked ch_id w
  else uipc_stop_main_server_thread w.

(** [wr_ret] is what write answers. *)
Definition UIPC_Send (ch_id : nat) (msglen : Z) (wr_ret : Z) (w : state)
  : state * bool :=
  let w := emit (SysWrite (fd (ch w ch_id)) msglen wr_ret) w in
  (w, false).

(** What poll and recv answer in one turn of the read loop. *)
Record rd_io := mkRdIo { rd_poll : Z; rd_revents : Z; rd_recv : Z }.

(** The [while (n_read < (int)len)] loop of UIPC_Read, with the script of
    the answers of the operating system as in [flush_loop]. *)
Fixpoint read_loop (ch_id : nat) (d len : Z) (script : list rd_io)
    (n_read : Z) (w : state) : option (state * Z) :=
  if n_read <? to_int len then
    match script with
    | [] => None
    | io :: rest =>
        if rd_poll io =? 0 then Some (w, to_uint32 n_read)
        else if rd_poll io <? 0 then Some (w, to_uint32 n_read)
        else if negb (Z.land (rd_revents io) (Z.lor POLLHUP POLLNVAL) =? 0)
        then Some (uipc_close_locked ch_id w, 0)
        else
          let n := rd_recv io in
          let w := emit (SysRecv d (to_uint32 (len - n_read)) n) w in
          if n =? 0 then Some (uipc_close_locked ch_id w, 0)
          else if n <? 0 then Some (w, 0)
          else read_loop ch_id d len rest (to_int (n_read + n)) w
    end
  else Some (w, to_uint32 n_read).

Definition UIPC_Read (ch_id : nat) (len : Z) (script : list rd_io) (w : state)
  : option (state * Z) :=
  let d := fd (ch w ch_id) in
  if (UIPC_CH_NUM <=? ch_id)%nat then Some (w, 0)
  else if d =? UIPC_DISCONNECTED then Some (w, 0)
  else read_loop ch_id d len script 0 w.

Definition UIPC_Ioctl (ch_id : nat) (request : tUIPC_REQUEST) (param : Z)
    (script : list fl_io) (w : state) : option (state * bool) :=
  let r :=
    match request with
    | UIPC_REQ_RX_FLUSH => uipc_flush_locked ch_id script w
    | UIPC_REG_CBACK => Some (upd_ch ch_id (with_cback param) w)
    | UIPC_REG_REMOVE_ACTIVE_READSET =>
        if negb (fd (ch w ch_id) =? UIPC_DISCONNECTED) then
          let w := set_active_set (FD_CLR (fd (ch w ch_id)) (active_set w)) w in
          Some (uipc_wakeup_locked w)
        else Some w
    | UIPC_SET_READ_POLL_TMO => Some (upd_ch ch_id (with_tmo (to_int param)) w)
    | UIPC_REQ_OTHER _ => Some w
    end in
  match r with
  | Some w => Some (w, false)
  | None => None
  end.

(** ** Sample states

    The states below are reached from the initial state by the control
    interface and the event loop; the examples and the concrete lemmas
    further down are stated on them. *)

Definition zero_chan : tUIPC_CHAN := mkChan 0 0 0 0 0.

(** After UIPC_Init with the socket pair (3, 4). *)
Definition st_init : state := fst (uipc_main_init 0 (3, 4) (fun _ => zero_chan)).

(** Both channels opened, with callbacks 100 and 200 and server sockets 5
    and 6. *)
Definition st_listening : state :=
  fst (UIPC_Open UIPC_CH_ID_AV_AUDIO 200 (mkSrvIo 6 0 0)
         (fst (UIPC_Open UIPC_CH_ID_AV_CTRL 100 (mkSrvIo 5 0 0) st_init))).

Definition sample_accepts (i : nat) : acc_io :=
  if (i =? UIPC_CH_ID_AV_CTRL)%nat then mkAccIo 1 7 0 else mkAccIo 1 8 0.

(** One turn of the event loop later: peers 7 and 8 are connected. *)
Definition st_connected : state :=
  uipc_read_task_iter (Some {[ 3; 5; 6 ]}) sample_accepts st_listening.

(** The control channel torn down again; its callback stays registered. *)
Definition st_ctrl_closed : state :=
  fst (uipc_close_ch_locked UIPC_CH_ID_AV_CTRL st_connected).

(** ** Vocabulary of the statements *)

Definition present (d : Z) : bool := negb (d =? UIPC_DISCONNECTED).

Definition opt_act (b : bool) (a : action) : list action :=
  if b then [a] else [].

(** The pending-disconnect flag of a channel, as the event loop tests it. *)
Definition pending (c : tUIPC_CHAN) : bool :=
  negb (Z.land (task_evt_flags c) UIPC_TASK_FLAG_DISCONNECT_CHAN =? 0).

(** What a teardown of channel [ch_id] does, read off its slot [c]: it
    closes the endpoints that are present, tells the callback if there is
    one, and wakes the event loop if something was closed. *)
Definition teardown_trace (ch_id : nat) (c : tUIPC_CHAN) : list action :=
  opt_act (present (srvfd c)) (SysClose (srvfd c)) ++
  opt_act (present (fd c)) (SysClose (fd c)) ++
  opt_act (negb (cback c =? 0)) (Callback (cback c) ch_id UIPC_CLOSE_EVT) ++
  opt_act (present (srvfd c) || present (fd c)) SysSendSignal.

Definition clr_present (d : Z) (s : gset Z) : gset Z :=
  if present d then FD_CLR d s else s.

(** Append a list of actions to the trace. *)
Definition emits (l : list action) (w : state) : state :=
  mkState (running w) (active_set w) (read_set w) (max_fd w) (signal_fds w)
          (ch w) (pipe w) (trace w ++ l).

(** A turn of the read loop in which the peer delivers data: poll reports
    the descriptor ready without hangup, and recv returns a positive count
    (never more than the [room] that was asked for). *)
Definition delivers (room : Z) (io : rd_io) : Prop :=
  0 < rd_poll io ∧
  Z.land (rd_revents io) (Z.lor POLLHUP POLLNVAL) = 0 ∧
  0 < rd_recv io <= room.

(** A run of such turns, starting with [n] bytes collected out of [len]. *)
Fixpoint data_run (len n : Z) (pre : list rd_io) : Prop :=
  match pre with
  | [] => True
  | io :: rest => delivers (len - n) io ∧ data_run len (n + rd_recv io) rest
  end.

Fixpoint collected (pre : list rd_io) : Z :=
  match pre with
  | [] => 0
  | io :: rest => rd_recv io + collected rest
  end.

(** The recv calls of a run of data turns. *)
Fixpoint recv_trace (d len n : Z) (pre : list rd_io) : list action :=
  match pre with
  | [] => []
  | io :: rest =>
      SysRecv d (len - n) (rd_recv io) :: recv_trace d len (n + rd_recv io) rest
  end.

(** A turn in which the peer is seen to be gone: a hangup or an invalid
    descriptor reported by poll, or a read of length zero. *)
Definition disconnects (io : rd_io) : Prop :=
  0 < rd_poll io ∧
  (Z.land (rd_revents io) (Z.lor POLLHUP POLLNVAL) ≠ 0 ∨ rd_recv io = 0).

Definition INT_MAX : Z := 2 ^ 31 - 1.

(** An answer of poll that ends the flush loop: a timeout, a failure, or
    an error or hangup on the descriptor. *)
Definition stops (io : fl_io) : Prop :=
  fl_poll io <= 0 ∨ Z.land (fl_revents io) (Z.lor POLLERR POLLHUP) ≠ 0.

(** The actions of servicing channel [ch_id], whose server endpoint is [s]:
    an accept on [s] with the socket option that follows it, and the Open
    and RxDataReady events of that channel. *)
Definition services (ch_id : nat) (s : Z) (a : action) : Prop :=
  match a with
  | SysAccept s' _ => s' = s
  | SysSetsockopt _ => True
  | Callback _ j ev =>
      j = ch_id ∧ (ev = UIPC_OPEN_EVT ∨ ev = UIPC_RX_DATA_READY_EVT)
  | _ => False
  end.

(** The teardowns of the channels whose pending-disconnect flag is set, in
    the order of the table. *)
Definition pending_teardowns (w : state) : list action :=
  flat_map (fun i => if pending (ch w i) then teardown_trace i (ch w i) else [])
           (seq 0 UIPC_CH_NUM).

(** The descriptor accept_server_socket hands back. *)
Definition accept_result (io : acc_io) : Z :=
  if io_poll io =? 0 then -1
  else if io_accept io =? -1 then -1 else io_accept io.

(** The state in which the event loop looks at the channels: select has
    left in [read_set] the members of the active set that are ready. *)
Definition after_select (ready : gset Z) (w : state) : state :=
  set_read_set (select (max_fd w + 1) (active_set w) ready) w.

(** ** The active set *)

(** [d] is a server or peer endpoint of a channel of the table; a channel
    that has such an endpoint is not Closed. *)
Definition endpoint_of (w : state) (d : Z) : Prop :=
  d ≠ UIPC_DISCONNECTED ∧
  ∃ i, (i < UIPC_CH_NUM)%nat ∧ (d = srvfd (ch w i) ∨ d = fd (ch w i)).

(** The invariant as the specification words it. *)
Definition active_iff (w : state) : Prop :=
  ∀ d, d ∈ active_set w ↔ (d = fst (signal_fds w) ∨ endpoint_of w d).




(** The operations of the multiplexer, with the answers of the operating
    system they meet. *)
Inductive op :=
| OpOpen (ch_id : nat) (p_cback : Z) (io : srv_io)
| OpClose (ch_id : nat)
| OpSend (ch_id : nat) (msglen wr_ret : Z)
| OpRead (ch_id : nat) (len : Z) (script : list rd_io)
| OpIoctl (ch_id : nat) (request : tUIPC_REQUEST) (param : Z)
          (script : list fl_io)
| OpTurn (sel : option (gset Z)) (io : nat -> acc_io).

Definition run (o : op) (w : state) : option state :=
  match o with
  | OpOpen ch_id p_cback io => Some (fst (UIPC_Open ch_id p_cback io w))
  | OpClose ch_id => Some (UIPC_Close ch_id w)
  | OpSend ch_id msglen wr_ret => Some (fst (UIPC_Send ch_id msglen wr_ret w))
  | OpRead ch_id len script => option_map fst (UIPC_Read ch_id len script w)
  | OpIoctl ch_id request param script =>
      option_map fst (UIPC_Ioctl ch_id request param script w)
  | OpTurn sel io => Some (uipc_read_task_iter sel io w)
  end.


(** A state in which the storage behind the table holds a slot-shaped
    value with descriptor 9. *)
Definition st_behind : state :=
  fst (uipc_main_init 0 (3, 4) (fun _ => mkChan 9 9 0 0 0)).




(** ** The range of the descriptor sets *)

(** FD_SETSIZE of sys/select.h.  An fd_set holds the descriptors from 0 to
    FD_SETSIZE - 1: FD_SET, FD_CLR and FD_ISSET are defined for these only,
    and select for a count of at most FD_SETSIZE.  uipc.cc calls them
    without a check of the range, so the sets above describe the program
    as long as every descriptor it is handed lies in the range; the
    statements about the states the multiplexer reaches carry that
    condition. *)
Definition FD_SETSIZE : Z := 1024.

Definition in_range (d : Z) : Prop := 0 <= d < FD_SETSIZE.

(** What a slot may hold: no descriptor, or one in the range. *)
Definition slot_ok (d : Z) : Prop := d = UIPC_DISCONNECTED ∨ in_range d.

(** A state in which every call of a descriptor-set macro and of select is
    within the range: the read end of the wakeup signal, the endpoints of
    the table and the members of the active set are, and [max_fd + 1] is a
    count select accepts. *)
Definition ranged (w : state) : Prop :=
  in_range (fst (signal_fds w)) ∧
  max_fd w < FD_SETSIZE ∧
  (∀ i, (i < UIPC_CH_NUM)%nat →
        slot_ok (srvfd (ch w i)) ∧ slot_ok (fd (ch w i))) ∧
  (∀ d, d ∈ active_set w → in_range d).

(** An operation that keeps the multiplexer within the range: socket and
    accept hand out descriptors below FD_SETSIZE (accept_server_socket
    hands back -1 or what accept returned), and the ioctl that calls
    FD_CLR on the peer endpoint of a slot is given a slot of the table. *)
Definition op_in_range (o : op) : Prop :=
  match o with
  | OpOpen _ _ io => io_socket io < FD_SETSIZE
  | OpIoctl ch_id UIPC_REG_REMOVE_ACTIVE_READSET _ _ =>
      (ch_id < UIPC_CH_NUM)%nat
  | OpTurn _ io => ∀ i, (i < UIPC_CH_NUM)%nat → slot_ok (accept_result (io i))
  | _ => True
  end.



(** ** Tactics for the concrete instances *)

(** Data runs and disconnects on concrete scripts. *)
Ltac solve_run :=
  cbn [data_run]; unfold delivers, disconnects; cbn [rd_poll rd_revents rd_recv];
  repeat split; try reflexivity; try discriminate; try lia.

(** The actions of a concrete trace all service a channel. *)
Ltac solve_services :=
  repeat match goal with
         | |- Forall _ (_ :: _) => constructor; [simpl; auto|]
         | |- Forall _ [] => constructor
         end.


(** ** The rest of the module *)

(** uipc_start_main_server_thread: the running flag is set, then the thread
    that runs [uipc_read_task] is created; [pc_ret] is what pthread_create
    answers. *)
Definition uipc_start_main_server_thread (pc_ret : Z) (w : state) : state * Z :=
  let w := set_running 1 w in
  if pc_ret <? 0 then (w, -1) else (w, 0).

(** UIPC_Init: the results of both calls are dropped. *)
Definition UIPC_Init (sp_ret : Z) (sp : Z * Z) (behind : nat -> tUIPC_CHAN)
    (pc_ret : Z) : state :=
  let w := fst (uipc_main_init sp_ret sp behind) in
  fst (uipc_start_main_server_thread pc_ret w).

(** uipc_read_task, run on its own: the turns of the loop with the answers
    of select and accept they meet, then the cleanup.  A run that asks for
    more turns than the script holds has no result. *)
Fixpoint uipc_read_task (turns : list (option (gset Z) * (nat -> acc_io)))
    (w : state) : option state :=
  if running w =? 0 then Some (uipc_main_cleanup w)
  else
    match turns with
    | [] => None
    | (sel, io) :: rest =>
        uipc_read_task rest (uipc_read_task_iter sel io w)
    end.

(** A sequence of operations. *)
Fixpoint run_all (ops : list op) (w : state) : option state :=
  match ops with
  | [] => Some w
  | o :: rest =>
      match run o w with
      | Some w1 => run_all rest w1
      | None => None
      end
  end.


(** A state reached from a successful initialisation by operations that
    stay within the range of the descriptor sets. *)
Definition reachable_in_range (w : state) : Prop :=
  ∃ sp behind ops,
    in_range (fst sp) ∧ Forall op_in_range ops ∧
    run_all ops (fst (uipc_main_init 0 sp behind)) = Some w.

(** ** Vocabulary of the further statements *)

(** The actions the module may perform on a callback: it is never invoked
    through a null pointer, never for an id outside the table, and only
    with the Open, Close and RxDataReady events. *)
Definition allowed (a : action) : Prop :=
  match a with
  | Callback cb i ev =>
      cb ≠ 0 ∧ (i < UIPC_CH_NUM)%nat ∧
      (ev = UIPC_OPEN_EVT ∨ ev = UIPC_CLOSE_EVT ∨ ev = UIPC_RX_DATA_READY_EVT)
  | _ => True
  end.

(** [w'] has the trace of [w] followed by allowed actions. *)
Definition extends_allowed (w w' : state) : Prop :=
  ∃ t, trace w' = trace w ++ t ∧ Forall allowed t.

(** A channel has a peer endpoint only if it has a server endpoint. *)
Definition well_formed (w : state) : Prop :=
  ∀ i, (i < UIPC_CH_NUM)%nat →
       srvfd (ch w i) = UIPC_DISCONNECTED → fd (ch w i) = UIPC_DISCONNECTED.

(** No member of the active set lies above [max_fd]. *)
Definition bounded (w : state) : Prop :=
  ∀ d, d ∈ active_set w → d <= max_fd w.

(** Two states that differ in nothing but the trace, the wakeup queue, the
    read set and the slots' flags, callbacks and timeouts. *)
Definition frame (w w' : state) : Prop :=
  (∀ i, srvfd (ch w' i) = srvfd (ch w i) ∧ fd (ch w' i) = fd (ch w i)) ∧
  active_set w' = active_set w ∧ signal_fds w' = signal_fds w ∧
  max_fd w' = max_fd w ∧ running w' = running w.

(** The Close events of channel [i]. *)
Definition is_close_of (i : nat) (a : action) : bool :=
  match a with
  | Callback _ j UIPC_CLOSE_EVT => Nat.eqb j i
  | _ => false
  end.

(** An answer of poll that ends the flush loop, as a test. *)
Definition stops_b (io : fl_io) : bool :=
  (fl_poll io <=? 0) || negb (Z.land (fl_revents io) (Z.lor POLLERR POLLHUP) =? 0).

(** The number of polls of a script that find data before the first one
    that ends the flush loop. *)
Fixpoint data_polls (script : list fl_io) : nat :=
  match script with
  | [] => 0
  | io :: rest => if stops_b io then 0 else S (data_polls rest)
  end.

(** [w'] is well formed and bounded if [w] is. *)
Definition keeps (w w' : state) : Prop :=
  (well_formed w → well_formed w') ∧ (bounded w → bounded w').

(** An action that is not an RxDataReady event of channel [i]. *)
Definition no_rx_of (i : nat) (a : action) : Prop :=
  match a with
  | Callback _ j UIPC_RX_DATA_READY_EVT => j ≠ i
  | _ => True
  end.

(** A connected control channel (server 5, peer 7) with nothing traced yet:
    the state a read on a fresh connection starts from. *)
Definition st_fresh_peer : state :=
  mkState 1 (∅ : gset Z) ∅ 7 (3, 4) (fun _ => mkChan 5 7 100 0 100) 0 [].

(** The actions of a concrete trace are all allowed. *)
Ltac solve_allowed :=
  repeat match goal with
         | |- Forall _ (_ :: _) => constructor; [simpl; auto 6|]
         | |- Forall _ [] => constructor
         end.

(** * Properties *)




Example st_ctrl_closed_ctrl :
  ch st_ctrl_closed UIPC_CH_ID_AV_CTRL = mkChan (-1) (-1) 100 0 100.
Proof. reflexivity. Qed.

(** ** Teardown *)

Lemma uipc_close_ch_locked_fields (ch_id : nat) (w : state) :
  (ch_id < UIPC_CH_NUM)%nat →
  let c := ch w ch_id in
  let w' := fst (uipc_close_ch_locked ch_id w) in
  snd (uipc_close_ch_locked ch_id w) = 0 ∧
  ch w' ch_id = with_fd UIPC_DISCONNECTED (with_srvfd UIPC_DISCONNECTED c) ∧
  (∀ j, j ≠ ch_id → ch w' j = ch w j) ∧
  active_set w' = clr_present (fd c) (clr_present (srvfd c) (active_set w)) ∧
  trace w' = trace w ++ teardown_trace ch_id c ∧
  pipe w' = (pipe w + if present (srvfd c) || present (fd c) then 1 else 0)%nat ∧
  read_set w' = read_set w ∧ signal_fds w' = signal_fds w ∧
  max_fd w' = max_fd w ∧ running w' = running w.
Proof.
  intros Hlt c w'. subst c w'.
  unfold uipc_close_ch_locked, teardown_trace, clr_present, present, call_cback.
  destruct (Nat.leb_spec UIPC_CH_NUM ch_id) as [Hge|_]; [lia|].
  assert (Hne : ∀ j, j ≠ ch_id → Nat.eqb j ch_id = false)
    by (intros j Hj; now apply Nat.eqb_neq).
  destruct (ch w ch_id) as [s d t f cb] eqn:Hc; simpl.
  destruct (s =? UIPC_DISCONNECTED) eqn:Hs; simpl;
    rewrite ?Nat.eqb_refl, ?Hc; simpl;
    destruct (d =? UIPC_DISCONNECTED) eqn:Hd; simpl;
    rewrite ?Nat.eqb_refl, ?Hc; simpl;
    destruct (cb =? 0) eqn:Hcb; simpl;
    rewrite ?Nat.eqb_refl, ?Hc; simpl;
    try apply Z.eqb_eq in Hs; try apply Z.eqb_eq in Hd; subst;
    repeat split; auto;
    try (intros j Hj; rewrite ?(Hne j Hj); reflexivity);
    rewrite <- ?app_assoc, ?app_nil_r; simpl; auto; lia.
Qed.

Example teardown_connected_ctrl :
  trace st_ctrl_closed =
  trace st_connected ++
  [SysClose 5; SysClose 7; Callback 100 UIPC_CH_ID_AV_CTRL UIPC_CLOSE_EVT;
   SysSendSignal].
Proof. vm_compute. reflexivity. Qed.

(** C1, as stated, fails: the control channel of [st_ctrl_closed] has no
    endpoint left, and a teardown still invokes its callback with the Close
    event. *)
Lemma teardown_closed_channel_emits_close :
  srvfd (ch st_ctrl_closed UIPC_CH_ID_AV_CTRL) = UIPC_DISCONNECTED ∧
  fd (ch st_ctrl_closed UIPC_CH_ID_AV_CTRL) = UIPC_DISCONNECTED ∧
  snd (uipc_close_ch_locked UIPC_CH_ID_AV_CTRL st_ctrl_closed) = 0 ∧
  trace (fst (uipc_close_ch_locked UIPC_CH_ID_AV_CTRL st_ctrl_closed)) =
  trace st_ctrl_closed ++ [Callback 100 UIPC_CH_ID_AV_CTRL UIPC_CLOSE_EVT].
Proof. vm_compute. repeat split; reflexivity. Qed.

(** C1, amended: a teardown of a channel of the table returns 0, closes the
    endpoints that are present and removes them from the active set, sends
    the wakeup byte only if it closed an endpoint, and invokes the callback
    with the Close event whenever a callback is registered, whether or not
    an endpoint was closed.  A second teardown leaves the slot, the active
    set and the wakeup queue as they are and returns 0; it emits the Close
    event once more if a callback is registered, and nothing otherwise. *)
Theorem teardown_idempotent_up_to_close_event (ch_id : nat) (w : state) :
  (ch_id < UIPC_CH_NUM)%nat →
  let c := ch w ch_id in
  let w' := fst (uipc_close_ch_locked ch_id w) in
  let w'' := fst (uipc_close_ch_locked ch_id w') in
  snd (uipc_close_ch_locked ch_id w) = 0 ∧
  srvfd (ch w' ch_id) = UIPC_DISCONNECTED ∧
  fd (ch w' ch_id) = UIPC_DISCONNECTED ∧
  active_set w' = clr_present (fd c) (clr_present (srvfd c) (active_set w)) ∧
  trace w' =
    trace w ++
    opt_act (present (srvfd c)) (SysClose (srvfd c)) ++
    opt_act (present (fd c)) (SysClose (fd c)) ++
    opt_act (negb (cback c =? 0)) (Callback (cback c) ch_id UIPC_CLOSE_EVT) ++
    opt_act (present (srvfd c) || present (fd c)) SysSendSignal ∧
  snd (uipc_close_ch_locked ch_id w') = 0 ∧
  ch w'' ch_id = ch w' ch_id ∧
  active_set w'' = active_set w' ∧
  pipe w'' = pipe w' ∧
  trace w'' =
    trace w' ++
    opt_act (negb (cback c =? 0)) (Callback (cback c) ch_id UIPC_CLOSE_EVT).
Proof.
  intros Hlt c w' w''.
  destruct (uipc_close_ch_locked_fields ch_id w Hlt)
    as (Hr & Hch & _ & Hact & Htr & _).
  destruct (uipc_close_ch_locked_fields ch_id w' Hlt)
    as (Hr2 & Hch2 & _ & Hact2 & Htr2 & Hp2 & _).
  fold c w' in Hr, Hch, Hact, Htr. fold w' w'' in Hr2, Hch2, Hact2, Htr2, Hp2.
  rewrite Hch in Hch2, Hact2, Htr2, Hp2. simpl in Hch2, Hact2, Htr2, Hp2.
  repeat split; auto.
  - rewrite Hch. reflexivity.
  - rewrite Hch. reflexivity.
  - rewrite Hch2, Hch. reflexivity.
  - rewrite Hp2. lia.
  - rewrite Htr2. unfold teardown_trace. simpl. rewrite app_nil_r. reflexivity.
Qed.

Lemma teardown_idempotent_up_to_close_event_witness :
  trace (fst (uipc_close_ch_locked UIPC_CH_ID_AV_CTRL st_connected)) =
  trace st_connected ++
  [SysClose 5; SysClose 7; Callback 100 UIPC_CH_ID_AV_CTRL UIPC_CLOSE_EVT;
   SysSendSignal].
Proof.
  assert (H : (UIPC_CH_ID_AV_CTRL < UIPC_CH_NUM)%nat) by (vm_compute; lia).
  destruct (teardown_idempotent_up_to_close_event UIPC_CH_ID_AV_CTRL
              st_connected H) as (_ & _ & _ & _ & Htr & _).
  exact Htr.
Defined.

(** ** The blocking read *)

Lemma to_int_small (z : Z) : 0 <= z <= INT_MAX → to_int z = z.
Proof.
  unfold to_int, INT_MAX. intros H.
  rewrite Z.mod_small; lia.
Qed.

Lemma to_uint32_small (z : Z) : 0 <= z <= INT_MAX → to_uint32 z = z.
Proof.
  unfold to_uint32, INT_MAX. intros H.
  rewrite Z.mod_small; lia.
Qed.

Lemma emits_nil (w : state) : emits [] w = w.
Proof. destruct w. unfold emits. simpl. now rewrite app_nil_r. Qed.

Lemma emits_cons (a : action) (l : list action) (w : state) :
  emits (a :: l) w = emits l (emit a w).
Proof. unfold emits, emit. simpl. now rewrite <- app_assoc. Qed.

Lemma data_run_bounds (len n : Z) (pre : list rd_io) :
  n <= len → data_run len n pre →
  0 <= collected pre ∧ n + collected pre <= len.
Proof.
  revert n. induction pre as [|io rest IH]; intros n Hn H; simpl in *.
  - lia.
  - destruct H as ((_ & _ & Hr) & Hrest).
    destruct (IH (n + rd_recv io) ltac:(lia) Hrest). lia.
Qed.

(** The loop runs through a run of data turns and arrives at the rest of
    the script with their bytes collected. *)
Lemma read_loop_data_run (ch_id : nat) (d len : Z) (pre rest : list rd_io) :
  0 <= len <= INT_MAX →
  ∀ (n : Z) (w : state),
    0 <= n → data_run len n pre →
    read_loop ch_id d len (pre ++ rest) n w =
    read_loop ch_id d len rest (n + collected pre)
              (emits (recv_trace d len n pre) w).
Proof.
  intros Hlen. induction pre as [|io pre IH]; intros n w Hn Hrun.
  - simpl. now rewrite Z.add_0_r, emits_nil.
  - destruct Hrun as ((Hp & Hrev & Hr) & Hrest).
    cbn [app read_loop collected recv_trace].
    rewrite (to_int_small len) by lia.
    destruct (Z.ltb_spec n len) as [_|Hge]; [|lia].
    destruct (Z.eqb_spec (rd_poll io) 0) as [E|_]; [lia|].
    destruct (Z.ltb_spec (rd_poll io) 0) as [E|_]; [lia|].
    rewrite Hrev. simpl negb. cbv iota.
    destruct (Z.eqb_spec (rd_recv io) 0) as [E|_]; [lia|].
    destruct (Z.ltb_spec (rd_recv io) 0) as [E|_]; [lia|].
    rewrite (to_int_small (n + rd_recv io)) by lia.
    rewrite (to_uint32_small (len - n)) by lia.
    rewrite IH by (auto; lia).
    rewrite emits_cons. f_equal. lia.
Qed.

Lemma uipc_close_locked_fields (ch_id : nat) (w : state) :
  let w' := uipc_close_locked ch_id w in
  (∀ i, srvfd (ch w' i) = srvfd (ch w i) ∧ fd (ch w' i) = fd (ch w i) ∧
        cback (ch w' i) = cback (ch w i) ∧
        read_poll_tmo_ms (ch w' i) = read_poll_tmo_ms (ch w i)) ∧
  (∀ i, i ≠ ch_id → ch w' i = ch w i) ∧
  active_set w' = active_set w ∧ read_set w' = read_set w ∧
  signal_fds w' = signal_fds w ∧ max_fd w' = max_fd w ∧
  running w' = running w ∧
  trace w' = trace w ++ opt_act (present (srvfd (ch w ch_id))) SysSendSignal ∧
  pipe w' = (pipe w + if present (srvfd (ch w ch_id)) then 1 else 0)%nat ∧
  task_evt_flags (ch w' ch_id) =
    if present (srvfd (ch w ch_id))
    then Z.lor (task_evt_flags (ch w ch_id)) UIPC_TASK_FLAG_DISCONNECT_CHAN
    else task_evt_flags (ch w ch_id).
Proof.
  unfold uipc_close_locked, present.
  destruct (srvfd (ch w ch_id) =? UIPC_DISCONNECTED) eqn:E; simpl.
  - rewrite app_nil_r. repeat split; auto; lia.
  - rewrite Nat.eqb_refl. simpl. repeat split; auto; try lia;
      try (destruct (Nat.eqb_spec i ch_id) as [->|]; reflexivity).
    intros i Hi. apply Nat.eqb_neq in Hi. now rewrite Hi.
Qed.

Lemma pending_after_lor (f : Z) :
  negb (Z.land (Z.lor f UIPC_TASK_FLAG_DISCONNECT_CHAN)
               UIPC_TASK_FLAG_DISCONNECT_CHAN =? 0) = true.
Proof.
  unfold UIPC_TASK_FLAG_DISCONNECT_CHAN.
  destruct (Z.eqb_spec (Z.land (Z.lor f 1) 1) 0) as [E|]; [|reflexivity].
  exfalso.
  assert (H : Z.testbit (Z.land (Z.lor f 1) 1) 0 = true).
  { rewrite Z.land_spec, Z.lor_spec. simpl. now rewrite orb_true_r. }
  rewrite E in H. discriminate.
Qed.

(** C8, as stated, fails for a length above INT_MAX.  A read of 2^31 bytes
    on the connected control channel, whose peer delivers them in one
    piece, returns 0 at once: converted to the signed type of the counter
    the length is negative, the test at the head of the loop fails the
    first time, and the read neither waits nor receives.  It has not timed
    out, and it does not return the length asked for. *)
Lemma UIPC_Read_above_INT_MAX_returns_at_once :
  let len := 2 ^ 31 in
  let pre := [mkRdIo 1 POLLIN len] in
  fd (ch st_connected UIPC_CH_ID_AV_CTRL) = 7 ∧
  0 <= len < 2 ^ 32 ∧ to_int len < 0 ∧
  data_run len 0 pre ∧ collected pre = len ∧
  ∃ w', UIPC_Read UIPC_CH_ID_AV_CTRL len (pre ++ []) st_connected
          = Some (w', 0) ∧
        trace w' = trace st_connected.
Proof.
  cbv zeta.
  split; [reflexivity|].
  split; [split; [discriminate | reflexivity]|].
  split; [reflexivity|].
  split; [solve_run|].
  split; [reflexivity|].
  eexists. split; reflexivity.
Qed.

(** C8, amended: on a connected channel and for a length up to INT_MAX, if
    the peer delivers data for some turns and the wait of the next turn
    times out before [len] bytes are there, the read returns the count
    collected so far, which lies in [0, len), and requests no disconnect;
    if the data turns bring the count to [len], the read returns [len].
    [len] ranges over the lengths that fit the signed counter of the
    loop. *)
Theorem UIPC_Read_timeout_returns_collected
    (ch_id : nat) (len : Z) (pre : list rd_io) (io : rd_io)
    (rest : list rd_io) (w : state) :
  (ch_id < UIPC_CH_NUM)%nat →
  fd (ch w ch_id) ≠ UIPC_DISCONNECTED →
  0 <= len <= INT_MAX →
  data_run len 0 pre →
  (rd_poll io = 0 → collected pre < len →
   UIPC_Read ch_id len (pre ++ io :: rest) w =
     Some (emits (recv_trace (fd (ch w ch_id)) len 0 pre) w, collected pre) ∧
   0 <= collected pre < len) ∧
  (collected pre = len →
   UIPC_Read ch_id len (pre ++ rest) w =
     Some (emits (recv_trace (fd (ch w ch_id)) len 0 pre) w, len)).
Proof.
  intros Hlt Hfd Hlen Hrun.
  destruct (data_run_bounds len 0 pre ltac:(lia) Hrun) as [H0 Hle].
  assert (Hguard : (UIPC_CH_NUM <=? ch_id)%nat = false)
    by (apply Nat.leb_gt; exact Hlt).
  assert (Hopen : (fd (ch w ch_id) =? UIPC_DISCONNECTED) = false)
    by (apply Z.eqb_neq; exact Hfd).
  split.
  - intros Htmo Hless. split; [|lia].
    unfold UIPC_Read. rewrite Hguard, Hopen.
    rewrite read_loop_data_run by (auto; lia).
    cbn [read_loop]. rewrite Z.add_0_l, (to_int_small len) by lia.
    destruct (Z.ltb_spec (collected pre) len) as [_|]; [|lia].
    rewrite Htmo. simpl. rewrite to_uint32_small by lia. reflexivity.
  - intros Hall.
    unfold UIPC_Read. rewrite Hguard, Hopen.
    rewrite read_loop_data_run by (auto; lia).
    rewrite Z.add_0_l, Hall.
    destruct rest; cbn [read_loop]; rewrite (to_int_small len) by lia;
      rewrite Z.ltb_irrefl, to_uint32_small by lia; reflexivity.
Qed.

Lemma UIPC_Read_timeout_returns_collected_witness :
  option_map snd
    (UIPC_Read UIPC_CH_ID_AV_CTRL 10
       ([mkRdIo 1 POLLIN 4; mkRdIo 1 POLLIN 3] ++ mkRdIo 0 0 0 :: [])
       st_connected) = Some 7 ∧
  option_map snd
    (UIPC_Read UIPC_CH_ID_AV_CTRL 7
       ([mkRdIo 1 POLLIN 4; mkRdIo 1 POLLIN 3] ++ [])
       st_connected) = Some 7.
Proof.
  split.
  - assert (Hrun : data_run 10 0 [mkRdIo 1 POLLIN 4; mkRdIo 1 POLLIN 3])
      by solve_run.
    destruct (UIPC_Read_timeout_returns_collected UIPC_CH_ID_AV_CTRL 10
                [mkRdIo 1 POLLIN 4; mkRdIo 1 POLLIN 3] (mkRdIo 0 0 0) []
                st_connected
                ltac:(vm_compute; lia) ltac:(vm_compute; discriminate)
                ltac:(vm_compute; split; discriminate) Hrun) as [Ht _].
    destruct (Ht eq_refl ltac:(simpl; lia)) as [-> _]. reflexivity.
  - assert (Hrun : data_run 7 0 [mkRdIo 1 POLLIN 4; mkRdIo 1 POLLIN 3])
      by solve_run.
    destruct (UIPC_Read_timeout_returns_collected UIPC_CH_ID_AV_CTRL 7
                [mkRdIo 1 POLLIN 4; mkRdIo 1 POLLIN 3] (mkRdIo 0 0 0) []
                st_connected
                ltac:(vm_compute; lia) ltac:(vm_compute; discriminate)
                ltac:(vm_compute; split; discriminate) Hrun) as [_ Hc].
    rewrite (Hc eq_refl). reflexivity.
Defined.

(** C2, as stated, fails: a read on the connected control channel that meets
    a hangup returns 0 with both endpoints still open and still in the
    active set; nothing was closed, the channel was only marked for the
    event loop. *)
Lemma UIPC_Read_hangup_leaves_endpoints_open :
  ∃ w', UIPC_Read UIPC_CH_ID_AV_CTRL 10 [mkRdIo 1 POLLHUP 0] st_connected
          = Some (w', 0) ∧
        ch w' UIPC_CH_ID_AV_CTRL = mkChan 5 7 100 1 100 ∧
        elements (active_set w') = elements (active_set st_connected) ∧
        trace w' = trace st_connected ++ [SysSendSignal].
Proof.
  eexists. split; [reflexivity|]. vm_compute. repeat split; reflexivity.
Qed.

(** C2, amended: when the read meets a hangup, an invalid descriptor or a
    read of length zero on the peer endpoint, it returns 0 and tears
    nothing down itself: no descriptor is closed, every endpoint and the
    active set stay as they were.  If the channel has a server endpoint it
    sets the pending-disconnect flag and sends the wakeup byte, which
    leaves the teardown to the event loop; otherwise it changes nothing in
    the slot. *)
Theorem UIPC_Read_disconnect_is_deferred
    (ch_id : nat) (len : Z) (pre : list rd_io) (io : rd_io)
    (rest : list rd_io) (w : state) :
  (ch_id < UIPC_CH_NUM)%nat →
  fd (ch w ch_id) ≠ UIPC_DISCONNECTED →
  0 <= len <= INT_MAX →
  data_run len 0 pre → collected pre < len →
  disconnects io →
  ∃ w',
    UIPC_Read ch_id len (pre ++ io :: rest) w = Some (w', 0) ∧
    (∀ i, srvfd (ch w' i) = srvfd (ch w i) ∧ fd (ch w' i) = fd (ch w i)) ∧
    active_set w' = active_set w ∧
    (∀ d, In (SysClose d) (trace w') → In (SysClose d) (trace w)) ∧
    pending (ch w' ch_id) =
      (present (srvfd (ch w ch_id)) || pending (ch w ch_id)) ∧
    pipe w' = (pipe w + if present (srvfd (ch w ch_id)) then 1 else 0)%nat.
Proof.
  intros Hlt Hfd Hlen Hrun Hless (Hp & Hgone).
  destruct (data_run_bounds len 0 pre ltac:(lia) Hrun) as [H0 Hle].
  assert (Hguard : (UIPC_CH_NUM <=? ch_id)%nat = false)
    by (apply Nat.leb_gt; exact Hlt).
  assert (Hopen : (fd (ch w ch_id) =? UIPC_DISCONNECTED) = false)
    by (apply Z.eqb_neq; exact Hfd).
  set (d := fd (ch w ch_id)).
  set (w1 := emits (recv_trace d len 0 pre) w).
  assert (Hstep : ∃ l, (∀ x, ¬ In (SysClose x) l) ∧
            UIPC_Read ch_id len (pre ++ io :: rest) w =
            Some (uipc_close_locked ch_id (emits l w), 0)).
  { unfold UIPC_Read. rewrite Hguard, Hopen. fold d.
    rewrite read_loop_data_run by (auto; lia). fold w1.
    cbn [read_loop]. rewrite Z.add_0_l, (to_int_small len) by lia.
    destruct (Z.ltb_spec (collected pre) len) as [_|]; [|lia].
    destruct (Z.eqb_spec (rd_poll io) 0) as [E|_]; [lia|].
    destruct (Z.ltb_spec (rd_poll io) 0) as [E|_]; [lia|].
    assert (Hrecv : ∀ n x, ¬ In (SysClose x) (recv_trace d len n pre)).
    { clear. induction pre as [|a pre IH]; intros n x; simpl; [tauto|].
      intros [E|E]; [discriminate | exact (IH _ _ E)]. }
    destruct (Z.eqb_spec (Z.land (rd_revents io) (Z.lor POLLHUP POLLNVAL)) 0)
      as [E0|E0]; simpl negb; cbv iota.
    - destruct Hgone as [Hg|Hg]; [contradiction|]. rewrite Hg. simpl.
      exists (recv_trace d len 0 pre ++
              [SysRecv d (to_uint32 (len - collected pre)) 0]).
      split.
      + intros x Hin. apply in_app_or in Hin. destruct Hin as [Hin|Hin].
        * exact (Hrecv _ _ Hin).
        * destruct Hin as [E|[]]. discriminate.
      + unfold w1, emits, emit. simpl. now rewrite <- app_assoc.
    - exists (recv_trace d len 0 pre). split; [apply Hrecv | reflexivity]. }
  destruct Hstep as (l & Hl & ->).
  destruct (uipc_close_locked_fields ch_id (emits l w))
    as (Hch & _ & Hact & _ & _ & _ & _ & Htr & Hpipe & Hfl).
  eexists. split; [reflexivity|].
  simpl in Hch, Hact, Htr, Hpipe, Hfl.
  repeat split.
  - apply Hch.
  - apply Hch.
  - exact Hact.
  - intros x. rewrite Htr. intros Hin.
    apply in_app_or in Hin. destruct Hin as [Hin|Hin].
    + apply in_app_or in Hin. destruct Hin as [Hin|Hin]; [exact Hin|].
      destruct (Hl _ Hin).
    + unfold opt_act in Hin. destruct (present _); simpl in Hin;
        [destruct Hin as [E|[]]; discriminate | destruct Hin].
  - unfold pending at 1. rewrite Hfl.
    destruct (present (srvfd (ch w ch_id))); simpl.
    + apply pending_after_lor.
    + reflexivity.
  - exact Hpipe.
Qed.

Lemma UIPC_Read_disconnect_is_deferred_witness :
  ∃ w', UIPC_Read UIPC_CH_ID_AV_CTRL 10
          ([mkRdIo 1 POLLIN 4] ++ mkRdIo 1 POLLIN 0 :: []) st_connected
          = Some (w', 0) ∧
        fd (ch w' UIPC_CH_ID_AV_CTRL) = 7 ∧
        pending (ch w' UIPC_CH_ID_AV_CTRL) = true.
Proof.
  destruct (UIPC_Read_disconnect_is_deferred UIPC_CH_ID_AV_CTRL 10
              [mkRdIo 1 POLLIN 4] (mkRdIo 1 POLLIN 0) [] st_connected
              ltac:(vm_compute; lia) ltac:(vm_compute; discriminate)
              ltac:(vm_compute; split; discriminate)
              ltac:(solve_run) ltac:(simpl; lia) ltac:(solve_run; now right))
    as (w' & Hr & Hch & _ & _ & Hpend & _).
  exists w'. split; [exact Hr|]. split.
  - rewrite (proj2 (Hch UIPC_CH_ID_AV_CTRL)). reflexivity.
  - rewrite Hpend. reflexivity.
Defined.

(** ** Results reported by the control interface *)

Example UIPC_Send_full_write :
  UIPC_Send UIPC_CH_ID_AV_CTRL 4 4 st_connected =
  (emit (SysWrite 7 4 4) st_connected, false).
Proof. reflexivity. Qed.

(** C3: the result of UIPC_Send is false on every call, also when write
    reports the whole payload written to a connected peer; the result does
    not tell success from failure. *)
Theorem UIPC_Send_result_is_always_false
    (ch_id : nat) (msglen wr_ret : Z) (w : state) :
  snd (UIPC_Send ch_id msglen wr_ret w) = false ∧
  trace (fst (UIPC_Send ch_id msglen wr_ret w)) =
    trace w ++ [SysWrite (fd (ch w ch_id)) msglen wr_ret].
Proof. split; reflexivity. Qed.

Example UIPC_Open_socket_failure :
  UIPC_Open UIPC_CH_ID_AV_CTRL 100 (mkSrvIo (-1) 0 0) st_init = (st_init, true).
Proof. reflexivity. Qed.

(** C4: when the listening endpoint of a closed channel cannot be created,
    UIPC_Open still returns true, and the channel has no server endpoint
    afterwards. *)
Theorem UIPC_Open_reports_success_on_failure
    (ch_id : nat) (p_cback : Z) (io : srv_io) (w : state) :
  (ch_id < UIPC_CH_NUM)%nat →
  srvfd (ch w ch_id) = UIPC_DISCONNECTED →
  io_socket io < 0 ∨ io_bind io < 0 ∨ io_listen io < 0 →
  snd (UIPC_Open ch_id p_cback io w) = true ∧
  srvfd (ch (fst (UIPC_Open ch_id p_cback io w)) ch_id) = UIPC_DISCONNECTED ∧
  active_set (fst (UIPC_Open ch_id p_cback io w)) = active_set w.
Proof.
  intros Hlt Hclosed Hfail.
  unfold UIPC_Open.
  assert (Hguard : (UIPC_CH_NUM <=? ch_id)%nat = false)
    by (apply Nat.leb_gt; exact Hlt).
  rewrite Hguard, Hclosed. simpl negb. cbv iota.
  split; [reflexivity|].
  assert (Hsetup : ∀ name,
            srvfd (ch (fst (uipc_setup_server_locked ch_id name p_cback io w))
                      ch_id) = UIPC_DISCONNECTED ∧
            active_set (fst (uipc_setup_server_locked ch_id name p_cback io w))
              = active_set w).
  { intros name. unfold uipc_setup_server_locked, create_server_socket.
    rewrite Hguard.
    destruct (Z.ltb_spec (io_socket io) 0) as [|Hs]; [simpl; auto|].
    destruct (Z.ltb_spec (io_bind io) 0) as [|Hb]; [simpl; auto|].
    destruct (Z.ltb_spec (io_listen io) 0) as [|Hl]; [simpl; auto|].
    lia. }
  destruct (ch_id =? UIPC_CH_ID_AV_CTRL)%nat; [apply Hsetup|].
  destruct (ch_id =? UIPC_CH_ID_AV_AUDIO)%nat; [apply Hsetup|].
  auto.
Qed.

Lemma UIPC_Open_reports_success_on_failure_witness :
  snd (UIPC_Open UIPC_CH_ID_AV_AUDIO 200 (mkSrvIo 5 (-1) 0) st_init) = true ∧
  srvfd (ch (fst (UIPC_Open UIPC_CH_ID_AV_AUDIO 200 (mkSrvIo 5 (-1) 0) st_init))
            UIPC_CH_ID_AV_AUDIO) = UIPC_DISCONNECTED.
Proof.
  destruct (UIPC_Open_reports_success_on_failure UIPC_CH_ID_AV_AUDIO 200
              (mkSrvIo 5 (-1) 0) st_init
              ltac:(vm_compute; lia) ltac:(reflexivity)
              ltac:(right; left; simpl; lia)) as (H1 & H2 & _).
  split; [exact H1 | exact H2].
Defined.

Example ioctl_behind_table :
  option_map (fun r => ch (fst r) UIPC_CH_NUM)
    (UIPC_Ioctl UIPC_CH_NUM UIPC_REG_CBACK 4660 [] st_behind)
  = Some (mkChan 9 9 0 0 4660).
Proof. reflexivity. Qed.

(** C5: a channel id outside the table is not rejected everywhere.  With
    such an id, the ioctl requests that register a callback or set the
    timeout write the entry behind the table, send performs a write on the
    descriptor found there, and close marks that entry and wakes the event
    loop when the entry does not read as disconnected. *)
Theorem invalid_channel_id_is_used
    (ch_id : nat) (param msglen wr_ret : Z) (script : list fl_io) (w : state) :
  (UIPC_CH_NUM <= ch_id)%nat → ch_id ≠ UIPC_CH_ID_ALL →
  (∃ w1, UIPC_Ioctl ch_id UIPC_REG_CBACK param script w = Some (w1, false) ∧
         cback (ch w1 ch_id) = param) ∧
  (∃ w2, UIPC_Ioctl ch_id UIPC_SET_READ_POLL_TMO param script w
           = Some (w2, false) ∧
         read_poll_tmo_ms (ch w2 ch_id) = to_int param) ∧
  trace (fst (UIPC_Send ch_id msglen wr_ret w)) =
    trace w ++ [SysWrite (fd (ch w ch_id)) msglen wr_ret] ∧
  (srvfd (ch w ch_id) ≠ UIPC_DISCONNECTED →
   pending (ch (UIPC_Close ch_id w) ch_id) = true ∧
   trace (UIPC_Close ch_id w) = trace w ++ [SysSendSignal]).
Proof.
  intros Hge Hall. repeat split.
  - eexists. split; [reflexivity|]. simpl. now rewrite Nat.eqb_refl.
  - eexists. split; [reflexivity|]. simpl. now rewrite Nat.eqb_refl.
  - apply Nat.eqb_neq in Hall. unfold UIPC_Close. rewrite Hall. simpl negb.
    cbv iota.
    destruct (uipc_close_locked_fields ch_id w) as (_ & _ & _ & _ & _ & _ & _ & _ & _ & Hfl).
    unfold pending. rewrite Hfl. unfold present.
    apply Z.eqb_neq in H. rewrite H. simpl. apply pending_after_lor.
  - apply Nat.eqb_neq in Hall. unfold UIPC_Close. rewrite Hall. simpl negb.
    cbv iota.
    destruct (uipc_close_locked_fields ch_id w) as (_ & _ & _ & _ & _ & _ & _ & Htr & _).
    rewrite Htr. unfold present. apply Z.eqb_neq in H. now rewrite H.
Qed.

Lemma invalid_channel_id_is_used_witness :
  ∃ w1, UIPC_Ioctl 2 UIPC_REG_CBACK 4660 [] st_behind = Some (w1, false) ∧
        cback (ch w1 2) = 4660.
Proof.
  destruct (invalid_channel_id_is_used 2 4660 0 0 [] st_behind
              ltac:(vm_compute; lia) ltac:(vm_compute; discriminate))
    as (H & _).
  exact H.
Defined.

(** ** The wakeup signal *)

Example two_wakeups_queued : pipe st_listening = 2%nat.
Proof. reflexivity. Qed.

(** C9, as stated, fails: the two opens that lead to [st_listening] each
    sent a wakeup byte; the event loop wakes, finds the read end ready and
    drains, and one byte is still queued afterwards. *)
Lemma drain_leaves_coalesced_bytes :
  let w := set_read_set (select (max_fd st_listening + 1)
                                (active_set st_listening) {[ 3 ]})
                        st_listening in
  SAFE_FD_ISSET (fst (signal_fds w)) (read_set w) = true ∧
  pipe w = 2%nat ∧
  pipe (uipc_check_interrupt_locked w) = 1%nat.
Proof. vm_compute. repeat split; reflexivity. Qed.

(** C9, amended: when the read end of the wakeup signal is ready, the drain
    receives exactly one byte, whatever the number of bytes queued; the
    other bytes stay queued (and make the read end ready again for the next
    turn of the loop).  When it is not ready the drain does nothing. *)
Theorem drain_removes_one_byte (w : state) :
  (0 < pipe w)%nat →
  (SAFE_FD_ISSET (fst (signal_fds w)) (read_set w) = true →
   S (pipe (uipc_check_interrupt_locked w)) = pipe w ∧
   trace (uipc_check_interrupt_locked w) = trace w ++ [SysRecvSignal]) ∧
  (SAFE_FD_ISSET (fst (signal_fds w)) (read_set w) = false →
   uipc_check_interrupt_locked w = w).
Proof.
  intros Hq. unfold uipc_check_interrupt_locked.
  destruct (SAFE_FD_ISSET (fst (signal_fds w)) (read_set w)); split;
    try discriminate; intros _; simpl; auto.
  split; [lia | reflexivity].
Qed.

Lemma drain_removes_one_byte_witness :
  let w := set_read_set {[ 3 ]} st_listening in
  S (pipe (uipc_check_interrupt_locked w)) = 2%nat.
Proof.
  intros w.
  destruct (drain_removes_one_byte w ltac:(vm_compute; lia)) as [H _].
  destruct (H ltac:(vm_compute; reflexivity)) as [Hp _].
  exact Hp.
Defined.

(** ** The ioctl *)

Lemma flush_loop_stops (d : Z) (script : list fl_io) (w : state) :
  Exists stops script → is_Some (flush_loop d script w).
Proof.
  intros Hex. revert w.
  induction Hex as [io rest Hstop | io rest _ IH]; intros w; simpl.
  - destruct Hstop as [Hp|Hr].
    + destruct (Z.eqb_spec (fl_poll io) 0); [eauto|].
      destruct (Z.ltb_spec (fl_poll io) 0); [eauto | lia].
    + destruct (fl_poll io =? 0); [eauto|].
      destruct (fl_poll io <? 0); [eauto|].
      apply Z.eqb_neq in Hr. rewrite Hr. simpl. eauto.
  - destruct (fl_poll io =? 0); [eauto|].
    destruct (fl_poll io <? 0); [eauto|].
    destruct (negb _); [eauto | apply IH].
Qed.

Lemma uipc_flush_locked_stops (ch_id : nat) (script : list fl_io) (w : state) :
  Exists stops script → is_Some (uipc_flush_locked ch_id script w).
Proof.
  intros Hex. unfold uipc_flush_locked, uipc_flush_ch_locked.
  destruct (UIPC_CH_NUM <=? ch_id)%nat; [eauto|].
  destruct (ch_id =? UIPC_CH_ID_AV_CTRL)%nat.
  { destruct (_ =? UIPC_DISCONNECTED); [eauto | now apply flush_loop_stops]. }
  destruct (ch_id =? UIPC_CH_ID_AV_AUDIO)%nat; [|eauto].
  destruct (_ =? UIPC_DISCONNECTED); [eauto | now apply flush_loop_stops].
Qed.

(** C10: every call of UIPC_Ioctl that returns, returns false, for every
    channel id and every request, also a request that was carried out.
    Every request returns: the flush does so as soon as one of its polls
    times out, fails or reports an error or a hangup, the other requests
    always. *)
Theorem UIPC_Ioctl_returns_false
    (ch_id : nat) (request : tUIPC_REQUEST) (param : Z)
    (script : list fl_io) (w : state) :
  (∀ w' b, UIPC_Ioctl ch_id request param script w = Some (w', b) → b = false) ∧
  (request ≠ UIPC_REQ_RX_FLUSH ∨ Exists stops script →
   ∃ w', UIPC_Ioctl ch_id request param script w = Some (w', false)).
Proof.
  split.
  - intros w' b. unfold UIPC_Ioctl.
    destruct request; simpl;
      repeat match goal with
             | |- context [match ?x with _ => _ end] => destruct x
             end; congruence.
  - intros Hret. unfold UIPC_Ioctl.
    destruct request; simpl; eauto.
    + destruct Hret as [Hne|Hex]; [congruence|].
      destruct (uipc_flush_locked_stops ch_id script w Hex) as [w' ->]. eauto.
    + destruct (negb _); eauto.
Qed.

Lemma UIPC_Ioctl_returns_false_witness :
  (∃ w', UIPC_Ioctl UIPC_CH_ID_AV_CTRL UIPC_REQ_RX_FLUSH 0
           [mkFlIo 1 POLLIN; mkFlIo 0 0] st_connected = Some (w', false)) ∧
  (∃ w', UIPC_Ioctl UIPC_CH_ID_AV_AUDIO UIPC_SET_READ_POLL_TMO 250 []
           st_connected = Some (w', false)).
Proof.
  split.
  - apply (proj2 (UIPC_Ioctl_returns_false UIPC_CH_ID_AV_CTRL UIPC_REQ_RX_FLUSH
                    0 [mkFlIo 1 POLLIN; mkFlIo 0 0] st_connected)).
    right. apply Exists_cons_tl, Exists_cons_hd. left. simpl. lia.
  - apply (proj2 (UIPC_Ioctl_returns_false UIPC_CH_ID_AV_AUDIO
                    UIPC_SET_READ_POLL_TMO 250 [] st_connected)).
    left. discriminate.
Defined.

(** ** The event loop *)

Lemma check_rx_fields (ch_id : nat) (w : state) :
  let w' := fst (check_rx ch_id w) in
  ch w' = ch w ∧ active_set w' = active_set w ∧ read_set w' = read_set w ∧
  signal_fds w' = signal_fds w ∧ pipe w' = pipe w ∧
  trace w' =
    trace w ++
    opt_act (SAFE_FD_ISSET (fd (ch w ch_id)) (read_set w) &&
             negb (cback (ch w ch_id) =? 0))
            (Callback (cback (ch w ch_id)) ch_id UIPC_RX_DATA_READY_EVT).
Proof.
  unfold check_rx, call_cback. simpl.
  destruct (SAFE_FD_ISSET _ _); simpl.
  - destruct (cback (ch w ch_id) =? 0); simpl; rewrite ?app_nil_r; auto 10.
  - rewrite app_nil_r. auto 10.
Qed.

Lemma check_rx_services (ch_id : nat) (s : Z) (w : state) :
  ∃ t, trace (fst (check_rx ch_id w)) = trace w ++ t ∧
       Forall (services ch_id s) t.
Proof.
  destruct (check_rx_fields ch_id w) as (_ & _ & _ & _ & _ & Htr).
  eexists. split; [exact Htr|].
  unfold opt_act. destruct (_ && _); constructor; simpl; auto.
Qed.

Lemma uipc_check_fd_locked_fields (ch_id : nat) (io : acc_io) (w : state) :
  (ch_id < UIPC_CH_NUM)%nat →
  let c := ch w ch_id in
  let w' := fst (uipc_check_fd_locked ch_id io w) in
  (∀ j, j ≠ ch_id → ch w' j = ch w j) ∧
  srvfd (ch w' ch_id) = srvfd c ∧ cback (ch w' ch_id) = cback c ∧
  task_evt_flags (ch w' ch_id) = task_evt_flags c ∧
  read_set w' = read_set w ∧ signal_fds w' = signal_fds w ∧
  pipe w' = pipe w ∧
  (SAFE_FD_ISSET (srvfd c) (read_set w) = false →
   fst (uipc_check_fd_locked ch_id io w) = fst (check_rx ch_id w)) ∧
  (SAFE_FD_ISSET (srvfd c) (read_set w) = true →
   fd (ch w' ch_id) = accept_result io ∧
   active_set w' =
     if (0 <? accept_result io) && negb (cback c =? 0)
     then FD_SET (accept_result io) (active_set w) else active_set w) ∧
  ∃ t, trace w' = trace w ++ t ∧ Forall (services ch_id (srvfd c)) t.
Proof.
  intros Hlt c w'. subst c w'.
  unfold uipc_check_fd_locked.
  destruct (Nat.leb_spec UIPC_CH_NUM ch_id) as [Hge|_]; [lia|].
  assert (Hne : ∀ j, j ≠ ch_id → Nat.eqb j ch_id = false)
    by (intros j Hj; now apply Nat.eqb_neq).
  destruct (SAFE_FD_ISSET (srvfd (ch w ch_id)) (read_set w)) eqn:Hsrv.
  2:{ destruct (check_rx_fields ch_id w) as (Hch & Ha & Hr & Hs & Hp & Htr).
      rewrite Hch. repeat split; auto; try discriminate.
      apply check_rx_services. }
  unfold accept_server_socket, accept_result, check_rx, call_cback.
  destruct (io_poll io =? 0) eqn:Hpoll;
    [|destruct (io_accept io =? -1) eqn:Hacc;
      [apply Z.eqb_eq in Hacc; rewrite Hacc|]];
    repeat (simpl; rewrite ?Nat.eqb_refl; simpl;
            match goal with
            | |- context [if ?b then _ else _] => destruct b eqn:?
            end);
    simpl; rewrite ?Nat.eqb_refl; simpl;
    rewrite <- ?app_assoc; simpl;
    repeat split; auto; try discriminate;
    try (intros j Hj; now rewrite (Hne j Hj));
    try (eexists; split; [reflexivity | solve_services]);
    try (exists []; rewrite app_nil_r; split; [reflexivity | constructor]).
Qed.

Lemma not_pending_after_clear (f : Z) :
  negb (Z.land (Z.land f (Z.lnot UIPC_TASK_FLAG_DISCONNECT_CHAN))
               UIPC_TASK_FLAG_DISCONNECT_CHAN =? 0) = false.
Proof.
  unfold UIPC_TASK_FLAG_DISCONNECT_CHAN.
  rewrite <- Z.land_assoc. change (Z.land (Z.lnot 1) 1) with 0.
  now rewrite Z.land_0_r.
Qed.

Lemma check_task_flag_fields (i : nat) (w : state) :
  (i < UIPC_CH_NUM)%nat →
  let c := ch w i in
  let w' := check_task_flag w i in
  (∀ j, j ≠ i → ch w' j = ch w j) ∧
  srvfd (ch w' i) = (if pending c then UIPC_DISCONNECTED else srvfd c) ∧
  fd (ch w' i) = (if pending c then UIPC_DISCONNECTED else fd c) ∧
  cback (ch w' i) = cback c ∧
  pending (ch w' i) = false ∧
  active_set w' =
    (if pending c
     then clr_present (fd c) (clr_present (srvfd c) (active_set w))
     else active_set w) ∧
  trace w' = trace w ++ (if pending c then teardown_trace i c else []) ∧
  read_set w' = read_set w ∧ signal_fds w' = signal_fds w.
Proof.
  intros Hlt c w'. subst c w'. unfold check_task_flag.
  fold (pending (ch w i)).
  destruct (pending (ch w i)) eqn:Hp.
  2:{ rewrite app_nil_r. repeat split; auto. }
  match goal with
  | |- context [uipc_close_ch_locked i ?x] =>
      destruct (uipc_close_ch_locked_fields i x Hlt)
        as (_ & Hch & Hoth & Hact & Htr & _ & Hrs & Hsig & _)
  end.
  assert (Hne : ∀ j, j ≠ i → Nat.eqb j i = false)
    by (intros j Hj; now apply Nat.eqb_neq).
  simpl in Hch, Hoth, Hact, Htr, Hrs, Hsig.
  rewrite Nat.eqb_refl in Hch, Hact, Htr. simpl in Hch, Hact, Htr.
  repeat split; auto.
  - intros j Hj. rewrite (Hoth j Hj). now rewrite (Hne j Hj).
  - now rewrite Hch.
  - now rewrite Hch.
  - now rewrite Hch.
  - unfold pending. rewrite Hch. simpl. apply not_pending_after_clear.
Qed.

Lemma uipc_check_task_flags_locked_fields (w : state) :
  let w' := uipc_check_task_flags_locked w in
  trace w' = trace w ++ pending_teardowns w ∧
  read_set w' = read_set w ∧ signal_fds w' = signal_fds w ∧
  (∀ i, (i < UIPC_CH_NUM)%nat →
        srvfd (ch w' i) =
          (if pending (ch w i) then UIPC_DISCONNECTED else srvfd (ch w i)) ∧
        fd (ch w' i) =
          (if pending (ch w i) then UIPC_DISCONNECTED else fd (ch w i)) ∧
        cback (ch w' i) = cback (ch w i) ∧
        pending (ch w' i) = false).
Proof.
  unfold uipc_check_task_flags_locked, pending_teardowns.
  change (seq 0 UIPC_CH_NUM) with [0%nat; 1%nat].
  cbn [foldl flat_map].
  set (w1 := check_task_flag w 0).
  destruct (check_task_flag_fields 0 w ltac:(unfold UIPC_CH_NUM; lia))
    as (Ho0 & Hs0 & Hf0 & Hc0 & Hp0 & _ & Ht0 & Hr0 & Hg0).
  destruct (check_task_flag_fields 1 w1 ltac:(unfold UIPC_CH_NUM; lia))
    as (Ho1 & Hs1 & Hf1 & Hc1 & Hp1 & _ & Ht1 & Hr1 & Hg1).
  fold w1 in Ho0, Hs0, Hf0, Hc0, Hp0, Ht0, Hr0, Hg0.
  assert (E1 : ch w1 1%nat = ch w 1%nat) by (apply Ho0; discriminate).
  rewrite E1 in Hs1, Hf1, Hc1, Ht1.
  repeat split.
  - rewrite Ht1, Ht0, app_nil_r, <- app_assoc. reflexivity.
  - congruence.
  - congruence.
  - destruct i as [|[|]]; [| |unfold UIPC_CH_NUM in *; lia].
    + rewrite (Ho1 0%nat) by discriminate. exact Hs0.
    + exact Hs1.
  - destruct i as [|[|]]; [| |unfold UIPC_CH_NUM in *; lia].
    + rewrite (Ho1 0%nat) by discriminate. exact Hf0.
    + exact Hf1.
  - destruct i as [|[|]]; [| |unfold UIPC_CH_NUM in *; lia].
    + rewrite (Ho1 0%nat) by discriminate. exact Hc0.
    + exact Hc1.
  - destruct i as [|[|]]; [| |unfold UIPC_CH_NUM in *; lia].
    + rewrite (Ho1 0%nat) by discriminate. exact Hp0.
    + exact Hp1.
Qed.

Lemma uipc_check_fd_locked_services
    (ch_id : nat) (io : acc_io) (w : state) (s : Z) :
  (ch_id < UIPC_CH_NUM)%nat →
  srvfd (ch w ch_id) = s ∨ srvfd (ch w ch_id) = UIPC_DISCONNECTED →
  ∃ t, trace (fst (uipc_check_fd_locked ch_id io w)) = trace w ++ t ∧
       Forall (services ch_id s) t.
Proof.
  intros Hlt [<-|Hs].
  - destruct (uipc_check_fd_locked_fields ch_id io w Hlt)
      as (_ & _ & _ & _ & _ & _ & _ & _ & _ & Ht). exact Ht.
  - destruct (uipc_check_fd_locked_fields ch_id io w Hlt)
      as (_ & _ & _ & _ & _ & _ & _ & Hno & _).
    rewrite Hno by (rewrite Hs; reflexivity).
    apply check_rx_services.
Qed.

(** C7: in a turn of the event loop in which select reports descriptors
    ready, the actions come in this order: the drain of the wakeup signal
    if its read end is ready, then the teardowns of the channels whose
    pending-disconnect flag is set, then the servicing of the audio channel,
    then that of the control channel, the only other channel.  When both
    peers are readable, no connection is incoming and no disconnect is
    pending, the audio callback is invoked with RxDataReady before the
    control callback. *)
Theorem event_loop_services_audio_first
    (ready : gset Z) (io : nat -> acc_io) (w : state) :
  let ws := after_select ready w in
  size (read_set ws) ≠ 0%nat →
  ∃ t_audio t_ctrl,
    trace (uipc_read_task_iter (Some ready) io w) =
      trace w ++
      opt_act (SAFE_FD_ISSET (fst (signal_fds w)) (read_set ws)) SysRecvSignal ++
      pending_teardowns w ++ t_audio ++ t_ctrl ∧
    Forall (services UIPC_CH_ID_AV_AUDIO (srvfd (ch w UIPC_CH_ID_AV_AUDIO)))
           t_audio ∧
    Forall (services UIPC_CH_ID_AV_CTRL (srvfd (ch w UIPC_CH_ID_AV_CTRL)))
           t_ctrl ∧
    ((∀ i, (i < UIPC_CH_NUM)%nat →
           pending (ch w i) = false ∧
           SAFE_FD_ISSET (srvfd (ch w i)) (read_set ws) = false ∧
           SAFE_FD_ISSET (fd (ch w i)) (read_set ws) = true ∧
           cback (ch w i) ≠ 0) →
     pending_teardowns w = [] ∧
     t_audio = [Callback (cback (ch w UIPC_CH_ID_AV_AUDIO)) UIPC_CH_ID_AV_AUDIO
                         UIPC_RX_DATA_READY_EVT] ∧
     t_ctrl = [Callback (cback (ch w UIPC_CH_ID_AV_CTRL)) UIPC_CH_ID_AV_CTRL
                        UIPC_RX_DATA_READY_EVT]).
Proof.
  intros ws Hsize.
  unfold uipc_read_task_iter.
  change (set_read_set _ (set_read_set (active_set w) w)) with ws.
  apply Nat.eqb_neq in Hsize. rewrite Hsize.
  change (seq 0 UIPC_CH_NUM) with [0%nat; 1%nat]. cbn [foldl].
  change (negb (0 =? UIPC_CH_ID_AV_AUDIO)%nat) with true.
  change (negb (1 =? UIPC_CH_ID_AV_AUDIO)%nat) with false. cbv iota.
  set (wd := uipc_check_interrupt_locked ws).
  set (wt := uipc_check_task_flags_locked wd).
  set (wa := fst (uipc_check_fd_locked UIPC_CH_ID_AV_AUDIO
                    (io UIPC_CH_ID_AV_AUDIO) wt)).
  assert (Hd : trace wd = trace w ++
                 opt_act (SAFE_FD_ISSET (fst (signal_fds w)) (read_set ws))
                         SysRecvSignal ∧
               ch wd = ch w ∧ read_set wd = read_set ws).
  { subst wd. unfold uipc_check_interrupt_locked.
    change (signal_fds ws) with (signal_fds w).
    destruct (SAFE_FD_ISSET _ _); simpl; rewrite ?app_nil_r; auto. }
  destruct Hd as (Htd & Hchd & Hrd).
  destruct (uipc_check_task_flags_locked_fields wd) as (Htt & Hrt & _ & Hcht).
  fold wt in Htt, Hrt, Hcht.
  assert (Hpt : pending_teardowns wd = pending_teardowns w)
    by (unfold pending_teardowns; now rewrite Hchd).
  rewrite Hpt in Htt. rewrite Hchd in Hcht.
  assert (HA : (UIPC_CH_ID_AV_AUDIO < UIPC_CH_NUM)%nat)
    by (unfold UIPC_CH_ID_AV_AUDIO, UIPC_CH_NUM; lia).
  assert (HC : (UIPC_CH_ID_AV_CTRL < UIPC_CH_NUM)%nat)
    by (unfold UIPC_CH_ID_AV_CTRL, UIPC_CH_NUM; lia).
  destruct (uipc_check_fd_locked_fields UIPC_CH_ID_AV_AUDIO
              (io UIPC_CH_ID_AV_AUDIO) wt HA)
    as (Hoa & _ & _ & _ & Hra & _ & _ & Hnoa & _ & _).
  fold wa in Hoa, Hra.
  assert (Hsa : srvfd (ch wt UIPC_CH_ID_AV_AUDIO)
                  = srvfd (ch w UIPC_CH_ID_AV_AUDIO) ∨
                srvfd (ch wt UIPC_CH_ID_AV_AUDIO) = UIPC_DISCONNECTED).
  { rewrite (proj1 (Hcht _ HA)). destruct (pending _); auto. }
  assert (Hsc : srvfd (ch wa UIPC_CH_ID_AV_CTRL)
                  = srvfd (ch w UIPC_CH_ID_AV_CTRL) ∨
                srvfd (ch wa UIPC_CH_ID_AV_CTRL) = UIPC_DISCONNECTED).
  { rewrite (Hoa UIPC_CH_ID_AV_CTRL) by discriminate.
    rewrite (proj1 (Hcht _ HC)). destruct (pending _); auto. }
  destruct (uipc_check_fd_locked_services UIPC_CH_ID_AV_AUDIO
              (io UIPC_CH_ID_AV_AUDIO) wt _ HA Hsa) as (ta & Hta & Hfa).
  destruct (uipc_check_fd_locked_services UIPC_CH_ID_AV_CTRL
              (io UIPC_CH_ID_AV_CTRL) wa _ HC Hsc) as (tc & Htc & Hfc).
  fold wa in Hta.
  exists ta, tc. repeat split; auto.
  - change (io 0%nat) with (io UIPC_CH_ID_AV_CTRL).
    change 0%nat with UIPC_CH_ID_AV_CTRL at 1.
    rewrite Htc, Hta, Htt, Htd, <- !app_assoc. reflexivity.
  - unfold pending_teardowns. change (seq 0 UIPC_CH_NUM) with [0%nat; 1%nat].
    cbn [flat_map].
    rewrite (proj1 (H 0%nat HC)), (proj1 (H 1%nat HA)). reflexivity.
  - destruct (H _ HA) as (Hp & Hsrv & Hfd & Hcb).
    destruct (Hcht _ HA) as (Es & Ef & Ec & _). rewrite Hp in Es, Ef.
    assert (Ewa : wa = fst (check_rx UIPC_CH_ID_AV_AUDIO wt))
      by (apply Hnoa; rewrite Es, Hrt, Hrd; exact Hsrv).
    rewrite Ewa in Hta.
    destruct (check_rx_fields UIPC_CH_ID_AV_AUDIO wt)
      as (_ & _ & _ & _ & _ & Hrx).
    rewrite Hrx, Ef, Ec, Hrt, Hrd, Hfd in Hta.
    apply Z.eqb_neq in Hcb. rewrite Hcb in Hta. simpl in Hta.
    apply app_inv_head in Hta. now symmetry.
  - destruct (H _ HC) as (Hp & Hsrv & Hfd & Hcb).
    destruct (Hcht _ HC) as (Es & Ef & Ec & _). rewrite Hp in Es, Ef.
    destruct (uipc_check_fd_locked_fields UIPC_CH_ID_AV_CTRL
                (io UIPC_CH_ID_AV_CTRL) wa HC)
      as (_ & _ & _ & _ & _ & _ & _ & Hnoc & _ & _).
    assert (Ech : ch wa UIPC_CH_ID_AV_CTRL = ch wt UIPC_CH_ID_AV_CTRL)
      by (apply Hoa; discriminate).
    rewrite Hnoc in Htc
      by (rewrite Ech, Es, Hra, Hrt, Hrd; exact Hsrv).
    destruct (check_rx_fields UIPC_CH_ID_AV_CTRL wa)
      as (_ & _ & _ & _ & _ & Hrx).
    rewrite Hrx, Ech, Ef, Ec, Hra, Hrt, Hrd, Hfd in Htc.
    apply Z.eqb_neq in Hcb. rewrite Hcb in Htc. simpl in Htc.
    apply app_inv_head in Htc. now symmetry.
Qed.

Lemma event_loop_services_audio_first_witness :
  trace (uipc_read_task_iter (Some {[ 7; 8 ]}) sample_accepts st_connected) =
  trace st_connected ++
  [Callback 200 UIPC_CH_ID_AV_AUDIO UIPC_RX_DATA_READY_EVT;
   Callback 100 UIPC_CH_ID_AV_CTRL UIPC_RX_DATA_READY_EVT].
Proof.
  assert (Hsz : size (read_set (after_select {[ 7; 8 ]} st_connected)) ≠ 0%nat)
    by (vm_compute; discriminate).
  destruct (event_loop_services_audio_first {[ 7; 8 ]} sample_accepts
              st_connected Hsz)
    as (ta & tc & Htr & _ & _ & Hsc).
  destruct Hsc as (Hp & -> & ->).
  { intros i Hi. destruct i as [|[|]];
      [| |unfold UIPC_CH_NUM in Hi; lia];
      vm_compute; repeat split; try reflexivity; discriminate. }
  rewrite Htr, Hp. reflexivity.
Defined.

(** ** The invariant of the active set *)


Lemma clr_present_spec (d x : Z) (s : gset Z) :
  x ∈ clr_present d s ↔ x ∈ s ∧ (d = UIPC_DISCONNECTED ∨ x ≠ d).
Proof.
  unfold clr_present, present, FD_CLR.
  destruct (Z.eqb_spec d UIPC_DISCONNECTED) as [E|E]; simpl.
  - tauto.
  - rewrite elem_of_difference, elem_of_singleton. tauto.
Qed.























(** ** States that differ in the bookkeeping only *)

Lemma frame_refl (w : state) : frame w w.
Proof. repeat split. Qed.

Lemma frame_trans (w1 w2 w3 : state) : frame w1 w2 → frame w2 w3 → frame w1 w3.
Proof.
  intros (H1 & A1 & S1 & M1 & R1) (H2 & A2 & S2 & M2 & R2).
  repeat split; try congruence.
  - rewrite (proj1 (H2 i)). apply H1.
  - rewrite (proj2 (H2 i)). apply H1.
Qed.

Lemma uipc_close_locked_frame (i : nat) (w : state) :
  frame w (uipc_close_locked i w).
Proof.
  destruct (uipc_close_locked_fields i w)
    as (Hch & _ & Ha & _ & Hs & Hm & Hr & _).
  repeat split; auto; apply Hch.
Qed.

Lemma read_loop_frame (i : nat) (d len : Z) (script : list rd_io) :
  ∀ n w w' r, read_loop i d len script n w = Some (w', r) → frame w w'.
Proof.
  induction script as [|io rest IH]; intros n w w' r; simpl.
  - destruct (n <? to_int len); [discriminate|].
    intros [= <- _]. apply frame_refl.
  - destruct (n <? to_int len); [|intros [= <- _]; apply frame_refl].
    destruct (rd_poll io =? 0); [intros [= <- _]; apply frame_refl|].
    destruct (rd_poll io <? 0); [intros [= <- _]; apply frame_refl|].
    destruct (negb _);
      [intros [= <- _]; apply uipc_close_locked_frame|].
    destruct (rd_recv io =? 0).
    { intros [= <- _].
      eapply frame_trans; [|apply uipc_close_locked_frame]. repeat split. }
    destruct (rd_recv io <? 0); [intros [= <- _]; repeat split|].
    intros H. apply IH in H. eapply frame_trans; [|exact H]. repeat split.
Qed.

Lemma flush_loop_frame (d : Z) (script : list fl_io) :
  ∀ w w', flush_loop d script w = Some w' → frame w w'.
Proof.
  induction script as [|io rest IH]; intros w w'; simpl; [discriminate|].
  destruct (fl_poll io =? 0); [intros [= <-]; apply frame_refl|].
  destruct (fl_poll io <? 0); [intros [= <-]; apply frame_refl|].
  destruct (negb _); [intros [= <-]; apply frame_refl|].
  intros H. apply IH in H. eapply frame_trans; [|exact H]. repeat split.
Qed.

Lemma uipc_flush_locked_frame (i : nat) (script : list fl_io) (w w' : state) :
  uipc_flush_locked i script w = Some w' → frame w w'.
Proof.
  unfold uipc_flush_locked, uipc_flush_ch_locked.
  destruct (UIPC_CH_NUM <=? i)%nat; [intros [= <-]; apply frame_refl|].
  destruct (i =? UIPC_CH_ID_AV_CTRL)%nat.
  { destruct (_ =? UIPC_DISCONNECTED);
      [intros [= <-]; apply frame_refl | apply flush_loop_frame]. }
  destruct (i =? UIPC_CH_ID_AV_AUDIO)%nat;
    [|intros [= <-]; apply frame_refl].
  destruct (_ =? UIPC_DISCONNECTED);
    [intros [= <-]; apply frame_refl | apply flush_loop_frame].
Qed.

Lemma upd_ch_frame (i : nat) (f : tUIPC_CHAN -> tUIPC_CHAN) (w : state) :
  (∀ c, srvfd (f c) = srvfd c ∧ fd (f c) = fd c) → frame w (upd_ch i f w).
Proof.
  intros Hf. repeat split; simpl; destruct (Nat.eqb_spec i0 i) as [->|];
    auto; apply Hf.
Qed.

(** ** Staying within the range of the descriptor sets *)

Lemma frame_ranged (w w' : state) : frame w w' → ranged w → ranged w'.
Proof.
  intros (Hch & Ha & Hs & Hm & _) (R1 & R2 & R3 & R4).
  unfold ranged. rewrite Hs, Hm, Ha.
  split; [exact R1|]. split; [exact R2|]. split; [|exact R4].
  intros i Hi. destruct (Hch i) as [-> ->]. now apply R3.
Qed.

Lemma uipc_close_ch_locked_ranged (i : nat) (w : state) :
  ranged w → ranged (fst (uipc_close_ch_locked i w)).
Proof.
  destruct (Nat.lt_ge_cases i UIPC_CH_NUM) as [Hi|Hi].
  2:{ unfold uipc_close_ch_locked. apply Nat.leb_le in Hi. now rewrite Hi. }
  destruct (uipc_close_ch_locked_fields i w Hi)
    as (_ & Hch & Hoth & Hact & _ & _ & _ & Hs & Hm & _).
  intros (R1 & R2 & R3 & R4). unfold ranged. rewrite Hs, Hm, Hact.
  split; [exact R1|]. split; [exact R2|]. split.
  - intros j Hj. destruct (Nat.eq_dec j i) as [->|Hn].
    + rewrite Hch. cbn [srvfd fd with_fd with_srvfd]. split; now left.
    + rewrite (Hoth j Hn). now apply R3.
  - intros d. rewrite !clr_present_spec. intros ((Hd & _) & _). now apply R4.
Qed.

Lemma check_task_flag_ranged (w : state) (i : nat) :
  ranged w → ranged (check_task_flag w i).
Proof.
  unfold check_task_flag. destruct (negb _); [|auto].
  intros HR. apply uipc_close_ch_locked_ranged.
  eapply frame_ranged; [|exact HR].
  apply upd_ch_frame. intros c. split; reflexivity.
Qed.

Lemma uipc_check_task_flags_locked_ranged (w : state) :
  ranged w → ranged (uipc_check_task_flags_locked w).
Proof.
  unfold uipc_check_task_flags_locked.
  generalize (seq 0 UIPC_CH_NUM). intros l. revert w.
  induction l as [|i l IH]; intros w HR; simpl; [exact HR|].
  apply IH, check_task_flag_ranged, HR.
Qed.

(** What the accept path does to the active set and to [max_fd]. *)
Lemma uipc_check_fd_locked_adds (i : nat) (io : acc_io) (w : state) :
  let w' := fst (uipc_check_fd_locked i io w) in
  (active_set w' = active_set w ∧ max_fd w' = max_fd w) ∨
  (0 < accept_result io ∧
   active_set w' = FD_SET (accept_result io) (active_set w) ∧
   max_fd w' = Z.max (max_fd w) (accept_result io)).
Proof.
  unfold uipc_check_fd_locked.
  destruct (UIPC_CH_NUM <=? i)%nat; [simpl; auto|].
  destruct (SAFE_FD_ISSET (srvfd (ch w i)) (read_set w)).
  2:{ destruct (check_rx_fields i w) as (_ & Ha & _). left.
      split; [exact Ha|]. unfold check_rx, call_cback.
      destruct (SAFE_FD_ISSET _ _); [destruct (_ =? 0)|]; reflexivity. }
  unfold accept_server_socket, accept_result.
  destruct (io_poll io =? 0).
  { cbn. rewrite ?Nat.eqb_refl. cbn. auto. }
  destruct (Z.eqb_spec (io_accept io) (-1)) as [E|E].
  { rewrite E. cbn. rewrite ?Nat.eqb_refl. cbn. auto. }
  unfold check_rx, call_cback.
  repeat (cbn; rewrite ?Nat.eqb_refl; cbn;
          match goal with
          | |- context [if ?b then _ else _] => destruct b eqn:?
          end);
    cbn; auto;
    match goal with
    | H : (0 <? _) && _ = true |- _ =>
        apply andb_prop in H; destruct H as [H _]; apply Z.ltb_lt in H; auto
    end.
Qed.

Lemma uipc_check_fd_locked_ranged (i : nat) (io : acc_io) (w : state) :
  slot_ok (accept_result io) → ranged w →
  ranged (fst (uipc_check_fd_locked i io w)).
Proof.
  intros Hio (R1 & R2 & R3 & R4).
  destruct (Nat.lt_ge_cases i UIPC_CH_NUM) as [Hi|Hi].
  2:{ unfold uipc_check_fd_locked. apply Nat.leb_le in Hi. rewrite Hi.
      repeat split; auto; apply R1 || apply R3 || apply R4; auto. }
  destruct (uipc_check_fd_locked_fields i io w Hi)
    as (Hoth & Hsrv & _ & _ & _ & Hs & _ & Hno & Hyes & _).
  destruct (uipc_check_fd_locked_adds i io w) as [[Ha Hm]|(Hpos & Ha & Hm)];
    unfold ranged; rewrite Hs, Ha, Hm.
  - split; [exact R1|]. split; [exact R2|]. split; [|exact R4].
    intros j Hj. destruct (Nat.eq_dec j i) as [->|Hn].
    + rewrite Hsrv. split; [now apply R3|].
      destruct (SAFE_FD_ISSET (srvfd (ch w i)) (read_set w)) eqn:E.
      * now rewrite (proj1 (Hyes eq_refl)).
      * rewrite (Hno eq_refl).
        destruct (check_rx_fields i w) as (-> & _). now apply R3.
    + rewrite (Hoth j Hn). now apply R3.
  - assert (Hin : in_range (accept_result io)).
    { destruct Hio as [E|H]; [|exact H]. unfold UIPC_DISCONNECTED in E. lia. }
    split; [exact R1|]. split; [unfold in_range in Hin; lia|]. split.
    + intros j Hj. destruct (Nat.eq_dec j i) as [->|Hn].
      * rewrite Hsrv. split; [now apply R3|].
        destruct (SAFE_FD_ISSET (srvfd (ch w i)) (read_set w)) eqn:E.
        -- now rewrite (proj1 (Hyes eq_refl)).
        -- rewrite (Hno eq_refl).
           destruct (check_rx_fields i w) as (-> & _). now apply R3.
      * rewrite (Hoth j Hn). now apply R3.
    + intros d. unfold FD_SET. rewrite elem_of_union, elem_of_singleton.
      intros [->|Hd]; [exact Hin | now apply R4].
Qed.

Lemma uipc_setup_server_locked_ranged
    (i : nat) (name : socket_name) (p : Z) (io : srv_io) (w : state) :
  io_socket io < FD_SETSIZE → ranged w →
  ranged (fst (uipc_setup_server_locked i name p io w)).
Proof.
  intros Hlt HR.
  unfold uipc_setup_server_locked, create_server_socket.
  destruct (UIPC_CH_NUM <=? i)%nat; [exact HR|].
  destruct (Z.ltb_spec (io_socket io) 0) as [Hneg|Hpos]; [exact HR|].
  destruct (io_bind io <? 0);
    [eapply frame_ranged; [|exact HR]; repeat split|].
  destruct (io_listen io <? 0);
    [eapply frame_ranged; [|exact HR]; repeat split|].
  destruct (Z.ltb_spec (io_socket io) 0) as [Hneg|_]; [lia|].
  destruct HR as (R1 & R2 & R3 & R4).
  set (d := io_socket io) in *.
  split; [exact R1|]. split; [cbn; lia|]. split.
  - intros j Hj. cbn.
    destruct (Nat.eqb_spec j i) as [->|Hn]; cbn; rewrite ?Nat.eqb_refl; cbn.
    + split; [right; split; lia | now apply R3].
    + now apply R3.
  - intros x. cbn. unfold FD_SET. rewrite elem_of_union, elem_of_singleton.
    intros [->|Hx]; [split; lia | now apply R4].
Qed.

Lemma uipc_read_task_iter_ranged
    (sel : option (gset Z)) (io : nat -> acc_io) (w : state) :
  (∀ i, (i < UIPC_CH_NUM)%nat → slot_ok (accept_result (io i))) →
  ranged w → ranged (uipc_read_task_iter sel io w).
Proof.
  intros Hio HR. unfold uipc_read_task_iter.
  destruct sel as [ready|]; [|eapply frame_ranged; [|exact HR]; repeat split].
  match goal with
  | |- context [if ?b then ?x else _] => destruct b; set (ws := x)
  end.
  { eapply frame_ranged; [|exact HR]. repeat split. }
  assert (Hs : ranged ws) by (eapply frame_ranged; [|exact HR]; repeat split).
  assert (Hd : ranged (uipc_check_interrupt_locked ws)).
  { unfold uipc_check_interrupt_locked.
    destruct (SAFE_FD_ISSET _ _); (eapply frame_ranged; [|exact Hs]);
      repeat split. }
  apply uipc_check_task_flags_locked_ranged in Hd.
  apply (uipc_check_fd_locked_ranged UIPC_CH_ID_AV_AUDIO
           (io UIPC_CH_ID_AV_AUDIO)) in Hd;
    [|apply Hio; unfold UIPC_CH_ID_AV_AUDIO, UIPC_CH_NUM; lia].
  revert Hd. generalize (fst (uipc_check_fd_locked UIPC_CH_ID_AV_AUDIO
                                (io UIPC_CH_ID_AV_AUDIO)
                                (uipc_check_task_flags_locked
                                   (uipc_check_interrupt_locked ws)))).
  assert (Hall : Forall (fun i => (i < UIPC_CH_NUM)%nat) (seq 0 UIPC_CH_NUM)).
  { apply List.Forall_forall. intros i Hin. apply in_seq in Hin. lia. }
  revert Hall. generalize (seq 0 UIPC_CH_NUM). intros l.
  induction l as [|i l IH]; intros Hall w0 H0; simpl; [exact H0|].
  inversion Hall; subst. apply IH; [assumption|].
  destruct (negb _); [|exact H0].
  apply uipc_check_fd_locked_ranged; auto.
Qed.

Lemma run_ranged (o : op) (w w' : state) :
  op_in_range o → ranged w → run o w = Some w' → ranged w'.
Proof.
  intros Hop HR. destruct o; simpl.
  - intros [= <-]. unfold UIPC_Open.
    destruct (UIPC_CH_NUM <=? ch_id)%nat; [exact HR|].
    destruct (negb _); [exact HR|]. simpl.
    destruct (ch_id =? UIPC_CH_ID_AV_CTRL)%nat;
      [now apply uipc_setup_server_locked_ranged|].
    destruct (ch_id =? UIPC_CH_ID_AV_AUDIO)%nat;
      [now apply uipc_setup_server_locked_ranged | exact HR].
  - intros [= <-]. unfold UIPC_Close. destruct (negb _).
    + eapply frame_ranged; [apply uipc_close_locked_frame | exact HR].
    + exact HR.
  - intros [= <-]. exact HR.
  - destruct (UIPC_Read ch_id len script w) as [[w1 r]|] eqn:E;
      [|discriminate].
    intros [= <-]. unfold UIPC_Read in E.
    destruct (UIPC_CH_NUM <=? ch_id)%nat; [now inversion E; subst|].
    destruct (_ =? UIPC_DISCONNECTED); [now inversion E; subst|].
    eapply frame_ranged; [eapply read_loop_frame; exact E | exact HR].
  - destruct (UIPC_Ioctl ch_id request param script w) as [[w1 b]|] eqn:E;
      [|discriminate].
    intros [= <-]. unfold UIPC_Ioctl in E. destruct request.
    + destruct (uipc_flush_locked ch_id script w) as [w2|] eqn:F;
        [|discriminate].
      inversion E; subst.
      eapply frame_ranged; [eapply uipc_flush_locked_frame; exact F | exact HR].
    + inversion E; subst. eapply frame_ranged; [|exact HR].
      apply upd_ch_frame. intros c. split; reflexivity.
    + destruct (negb _); inversion E; subst; [|exact HR].
      destruct HR as (R1 & R2 & R3 & R4).
      split; [exact R1|]. split; [exact R2|]. split; [exact R3|].
      intros d. cbn. unfold FD_CLR. rewrite elem_of_difference.
      intros [Hd _]. now apply R4.
    + inversion E; subst. eapply frame_ranged; [|exact HR].
      apply upd_ch_frame. intros c. split; reflexivity.
    + inversion E; subst. exact HR.
  - intros [= <-]. now apply uipc_read_task_iter_ranged.
Qed.

Lemma run_all_ranged (ops : list op) :
  ∀ w w', Forall op_in_range ops → ranged w → run_all ops w = Some w' →
          ranged w'.
Proof.
  induction ops as [|o ops IH]; intros w w' Hall HR; simpl.
  - intros [= <-]. exact HR.
  - inversion Hall; subst.
    destruct (run o w) as [w1|] eqn:E; [|discriminate].
    apply IH; [assumption|]. eapply run_ranged; eauto.
Qed.

Lemma uipc_main_init_ranged (sp : Z * Z) (behind : nat -> tUIPC_CHAN) :
  in_range (fst sp) → ranged (fst (uipc_main_init 0 sp behind)).
Proof.
  intros Hsp. unfold uipc_main_init, ranged. simpl.
  split; [exact Hsp|]. split; [unfold in_range, FD_SETSIZE in *; lia|]. split.
  - intros i Hi. apply Nat.ltb_lt in Hi. rewrite Hi. simpl.
    split; now left.
  - intros d. unfold FD_SET. rewrite elem_of_union, elem_of_singleton.
    intros [->|Hd]; [exact Hsp | now apply not_elem_of_empty in Hd].
Qed.

(** ** The invariant of the active set within the range *)






(** * Further properties of the module *)


(** ** What the module does with callbacks *)

Lemma extends_refl (w : state) : extends_allowed w w.
Proof. exists []. split; [now rewrite app_nil_r | constructor]. Qed.

Lemma extends_trans (w1 w2 w3 : state) :
  extends_allowed w1 w2 → extends_allowed w2 w3 → extends_allowed w1 w3.
Proof.
  intros (t1 & E1 & F1) (t2 & E2 & F2). exists (t1 ++ t2). split.
  - now rewrite E2, E1, app_assoc.
  - apply Forall_app. split; assumption.
Qed.

Lemma extends_same (w w1 w2 : state) :
  trace w2 = trace w1 → extends_allowed w w1 → extends_allowed w w2.
Proof. intros E (t & Et & F). exists t. split; [congruence | exact F]. Qed.

Lemma extends_list (w w' : state) (t : list action) :
  trace w' = trace w ++ t → Forall allowed t → extends_allowed w w'.
Proof. intros E F. exists t. auto. Qed.

Lemma teardown_trace_allowed (i : nat) (c : tUIPC_CHAN) :
  (i < UIPC_CH_NUM)%nat → Forall allowed (teardown_trace i c).
Proof.
  intros Hi. unfold teardown_trace, opt_act.
  destruct (present (srvfd c)), (present (fd c));
    destruct (Z.eqb_spec (cback c) 0); simpl;
    repeat (constructor; simpl; auto).
Qed.

Lemma uipc_close_ch_locked_extends (i : nat) (w : state) :
  extends_allowed w (fst (uipc_close_ch_locked i w)).
Proof.
  destruct (Nat.lt_ge_cases i UIPC_CH_NUM) as [Hi|Hi].
  - destruct (uipc_close_ch_locked_fields i w Hi) as (_ & _ & _ & _ & Ht & _).
    eapply extends_list; [exact Ht | now apply teardown_trace_allowed].
  - unfold uipc_close_ch_locked. apply Nat.leb_le in Hi. rewrite Hi.
    apply extends_refl.
Qed.

Lemma check_task_flag_extends (w : state) (i : nat) :
  extends_allowed w (check_task_flag w i).
Proof.
  unfold check_task_flag. destruct (negb _); [|apply extends_refl].
  eapply extends_trans; [|apply uipc_close_ch_locked_extends].
  eapply extends_same; [|apply extends_refl]. reflexivity.
Qed.

Lemma uipc_check_task_flags_locked_extends (w : state) :
  extends_allowed w (uipc_check_task_flags_locked w).
Proof.
  unfold uipc_check_task_flags_locked.
  generalize (seq 0 UIPC_CH_NUM). intros l. revert w.
  induction l as [|i l IH]; intros w; simpl; [apply extends_refl|].
  eapply extends_trans; [apply check_task_flag_extends | apply IH].
Qed.

Lemma uipc_check_fd_locked_extends (i : nat) (io : acc_io) (w : state) :
  extends_allowed w (fst (uipc_check_fd_locked i io w)).
Proof.
  unfold uipc_check_fd_locked.
  destruct (Nat.leb_spec UIPC_CH_NUM i) as [Hge|Hlt]; [apply extends_refl|].
  unfold accept_server_socket, check_rx, call_cback, extends_allowed.
  repeat (simpl; rewrite ?Nat.eqb_refl; simpl;
          match goal with
          | |- context [if ?b then _ else _] => destruct b eqn:?
          end);
    simpl; rewrite ?Nat.eqb_refl; simpl;
    rewrite <- ?app_assoc; simpl;
    repeat match goal with
           | H : (_ =? 0) = false |- _ =>
               simpl in H; rewrite ?Nat.eqb_refl in H; simpl in H;
               apply Z.eqb_neq in H
           end;
    try (eexists; split; [reflexivity | solve_allowed]);
    try (exists []; rewrite app_nil_r; split; [reflexivity | constructor]).
Qed.

Lemma uipc_read_task_iter_extends
    (sel : option (gset Z)) (io : nat -> acc_io) (w : state) :
  extends_allowed w (uipc_read_task_iter sel io w).
Proof.
  unfold uipc_read_task_iter.
  destruct sel as [ready|];
    [|eapply extends_same; [|apply extends_refl]; reflexivity].
  match goal with
  | |- context [if ?b then ?x else _] => destruct b; set (ws := x)
  end.
  { eapply extends_same; [|apply extends_refl]; reflexivity. }
  eapply extends_trans with (w2 := uipc_check_interrupt_locked ws).
  { unfold uipc_check_interrupt_locked. destruct (SAFE_FD_ISSET _ _).
    - eapply extends_list; [reflexivity | repeat constructor].
    - eapply extends_same; [|apply extends_refl]; reflexivity. }
  eapply extends_trans; [apply uipc_check_task_flags_locked_extends|].
  generalize (seq 0 UIPC_CH_NUM). intros l.
  match goal with
  | |- extends_allowed _ (foldl _ ?x _) =>
      apply extends_trans with (w2 := x);
      [apply uipc_check_fd_locked_extends|]; generalize x
  end.
  induction l as [|i l IH]; intros w0; simpl; [apply extends_refl|].
  eapply extends_trans; [|apply IH].
  destruct (negb _); [apply uipc_check_fd_locked_extends | apply extends_refl].
Qed.

Lemma uipc_close_locked_extends (i : nat) (w : state) :
  extends_allowed w (uipc_close_locked i w).
Proof.
  destruct (uipc_close_locked_fields i w)
    as (_ & _ & _ & _ & _ & _ & _ & Ht & _).
  eapply extends_list; [exact Ht|].
  unfold opt_act. destruct (present _); repeat constructor.
Qed.

Lemma read_loop_extends (i : nat) (d len : Z) (script : list rd_io) :
  ∀ n w w' r,
    read_loop i d len script n w = Some (w', r) → extends_allowed w w'.
Proof.
  induction script as [|io rest IH]; intros n w w' r; simpl.
  - destruct (n <? to_int len); [discriminate|].
    intros [= <- _]. apply extends_refl.
  - destruct (n <? to_int len); [|intros [= <- _]; apply extends_refl].
    destruct (rd_poll io =? 0); [intros [= <- _]; apply extends_refl|].
    destruct (rd_poll io <? 0); [intros [= <- _]; apply extends_refl|].
    destruct (negb _);
      [intros [= <- _]; apply uipc_close_locked_extends|].
    assert (Hrecv : ∀ a, extends_allowed w
              (emit (SysRecv d (to_uint32 (len - n)) a) w))
      by (intros a; eapply extends_list; [reflexivity | repeat constructor]).
    destruct (rd_recv io =? 0).
    { intros [= <- _].
      eapply extends_trans; [apply Hrecv | apply uipc_close_locked_extends]. }
    destruct (rd_recv io <? 0); [intros [= <- _]; apply Hrecv|].
    intros H. apply IH in H. eapply extends_trans; [apply Hrecv | exact H].
Qed.

Lemma flush_loop_extends (d : Z) (script : list fl_io) :
  ∀ w w', flush_loop d script w = Some w' → extends_allowed w w'.
Proof.
  induction script as [|io rest IH]; intros w w'; simpl; [discriminate|].
  destruct (fl_poll io =? 0); [intros [= <-]; apply extends_refl|].
  destruct (fl_poll io <? 0); [intros [= <-]; apply extends_refl|].
  destruct (negb _); [intros [= <-]; apply extends_refl|].
  intros H. apply IH in H. eapply extends_trans; [|exact H].
  eapply extends_list; [reflexivity | repeat constructor].
Qed.

Lemma uipc_flush_locked_extends (i : nat) (script : list fl_io) (w w' : state) :
  uipc_flush_locked i script w = Some w' → extends_allowed w w'.
Proof.
  unfold uipc_flush_locked, uipc_flush_ch_locked.
  destruct (UIPC_CH_NUM <=? i)%nat; [intros [= <-]; apply extends_refl|].
  destruct (i =? UIPC_CH_ID_AV_CTRL)%nat.
  { destruct (_ =? UIPC_DISCONNECTED);
      [intros [= <-]; apply extends_refl | apply flush_loop_extends]. }
  destruct (i =? UIPC_CH_ID_AV_AUDIO)%nat;
    [|intros [= <-]; apply extends_refl].
  destruct (_ =? UIPC_DISCONNECTED);
    [intros [= <-]; apply extends_refl | apply flush_loop_extends].
Qed.

Lemma uipc_setup_server_locked_extends
    (i : nat) (name : socket_name) (p : Z) (io : srv_io) (w : state) :
  extends_allowed w (fst (uipc_setup_server_locked i name p io w)).
Proof.
  unfold uipc_setup_server_locked, create_server_socket, extends_allowed.
  repeat (simpl;
          match goal with
          | |- context [if ?b then _ else _] => destruct b eqn:?
          end);
    simpl; rewrite <- ?app_assoc; simpl;
    try (eexists; split; [reflexivity | solve_allowed]);
    try (exists []; rewrite app_nil_r; split; [reflexivity | constructor]).
Qed.

Lemma run_extends (o : op) (w w' : state) :
  run o w = Some w' → extends_allowed w w'.
Proof.
  destruct o; simpl.
  - intros [= <-]. unfold UIPC_Open.
    destruct (UIPC_CH_NUM <=? ch_id)%nat; [apply extends_refl|].
    destruct (negb _); [apply extends_refl|]. simpl.
    destruct (ch_id =? UIPC_CH_ID_AV_CTRL)%nat;
      [apply uipc_setup_server_locked_extends|].
    destruct (ch_id =? UIPC_CH_ID_AV_AUDIO)%nat;
      [apply uipc_setup_server_locked_extends | apply extends_refl].
  - intros [= <-]. unfold UIPC_Close. destruct (negb _).
    + apply uipc_close_locked_extends.
    + eapply extends_list; [reflexivity | repeat constructor].
  - intros [= <-]. eapply extends_list; [reflexivity | repeat constructor].
  - destruct (UIPC_Read ch_id len script w) as [[w1 r]|] eqn:E;
      [|discriminate].
    intros [= <-]. unfold UIPC_Read in E.
    destruct (UIPC_CH_NUM <=? ch_id)%nat;
      [inversion E; subst; apply extends_refl|].
    destruct (_ =? UIPC_DISCONNECTED);
      [inversion E; subst; apply extends_refl|].
    eapply read_loop_extends; exact E.
  - destruct (UIPC_Ioctl ch_id request param script w) as [[w1 b]|] eqn:E;
      [|discriminate].
    intros [= <-]. unfold UIPC_Ioctl in E. destruct request.
    + destruct (uipc_flush_locked ch_id script w) as [w2|] eqn:F;
        [|discriminate].
      inversion E; subst. eapply uipc_flush_locked_extends; exact F.
    + inversion E; subst. eapply extends_same; [|apply extends_refl].
      reflexivity.
    + destruct (negb _); inversion E; subst; [|apply extends_refl].
      eapply extends_list; [reflexivity | repeat constructor].
    + inversion E; subst. eapply extends_same; [|apply extends_refl].
      reflexivity.
    + inversion E; subst. apply extends_refl.
  - intros [= <-]. apply uipc_read_task_iter_extends.
Qed.

Lemma run_all_extends (ops : list op) :
  ∀ w w', run_all ops w = Some w' → extends_allowed w w'.
Proof.
  induction ops as [|o ops IH]; intros w w'; simpl.
  - intros [= <-]. apply extends_refl.
  - destruct (run o w) as [w1|] eqn:E; [|discriminate].
    intros H. eapply extends_trans; [eapply run_extends; exact E | now apply IH].
Qed.

Lemma uipc_main_cleanup_extends (w : state) :
  extends_allowed w (uipc_main_cleanup w).
Proof.
  unfold uipc_main_cleanup.
  generalize (seq 0 UIPC_CH_NUM). intros l.
  match goal with
  | |- extends_allowed _ (foldl _ ?x _) =>
      assert (H0 : extends_allowed w x)
        by (eapply extends_list; [simpl; rewrite <- app_assoc; reflexivity
                                 | repeat constructor]);
      revert H0; generalize x
  end.
  induction l as [|i l IH]; intros w0 H0; simpl; [exact H0|].
  apply IH. eapply extends_trans; [exact H0|].
  apply uipc_close_ch_locked_extends.
Qed.

(** X1: whatever sequence of operations is run, and in the cleanup at the
    end of the task, a callback is never invoked through a null pointer,
    never for a channel id outside the table, and never with an event other
    than Open, Close and RxDataReady. *)
Theorem callbacks_are_never_null_or_foreign (ops : list op) (w w' : state) :
  run_all ops w = Some w' →
  ∃ t, trace (uipc_main_cleanup w') = trace w ++ t ∧
       ∀ cb i ev, In (Callback cb i ev) t →
         cb ≠ 0 ∧ (i < UIPC_CH_NUM)%nat ∧
         ev ≠ UIPC_RX_DATA_EVT ∧ ev ≠ UIPC_TX_DATA_READY_EVT.
Proof.
  intros Hrun.
  destruct (extends_trans _ _ _ (run_all_extends ops w w' Hrun)
              (uipc_main_cleanup_extends w')) as (t & Ht & Hall).
  exists t. split; [exact Ht|].
  intros cb i ev Hin. rewrite List.Forall_forall in Hall.
  destruct (Hall _ Hin) as (Hcb & Hi & Hev).
  repeat split; auto; intros ->; destruct Hev as [E|[E|E]]; discriminate.
Qed.

Lemma callbacks_are_never_null_or_foreign_witness :
  ∃ t, trace (uipc_main_cleanup st_connected) = trace st_init ++ t ∧
       ∀ cb i ev, In (Callback cb i ev) t →
         cb ≠ 0 ∧ (i < UIPC_CH_NUM)%nat ∧
         ev ≠ UIPC_RX_DATA_EVT ∧ ev ≠ UIPC_TX_DATA_READY_EVT.
Proof.
  assert (Hrun : run_all
            [OpOpen UIPC_CH_ID_AV_CTRL 100 (mkSrvIo 5 0 0);
             OpOpen UIPC_CH_ID_AV_AUDIO 200 (mkSrvIo 6 0 0);
             OpTurn (Some {[ 3; 5; 6 ]}) sample_accepts] st_init
            = Some st_connected) by (vm_compute; reflexivity).
  exact (callbacks_are_never_null_or_foreign _ st_init st_connected Hrun).
Defined.

(** ** Properties kept by every operation *)

Lemma keeps_refl (w : state) : keeps w w.
Proof. split; auto. Qed.

Lemma keeps_trans (w1 w2 w3 : state) : keeps w1 w2 → keeps w2 w3 → keeps w1 w3.
Proof.
  intros (W1 & B1) (W2 & B2). split; auto.
Qed.

Lemma frame_keeps (w w' : state) : frame w w' → keeps w w'.
Proof.
  intros (Hch & Ha & _ & Hm & Hr). split.
  - intros HW i Hi. destruct (Hch i) as [-> ->]. now apply HW.
  - intros HB d. rewrite Ha, Hm. apply HB.
Qed.

Lemma uipc_close_ch_locked_keeps (i : nat) (w : state) :
  keeps w (fst (uipc_close_ch_locked i w)).
Proof.
  destruct (Nat.lt_ge_cases i UIPC_CH_NUM) as [Hi|Hi].
  2:{ unfold uipc_close_ch_locked. apply Nat.leb_le in Hi. rewrite Hi.
      apply keeps_refl. }
  destruct (uipc_close_ch_locked_fields i w Hi)
    as (_ & Hch & Hoth & Hact & _ & _ & _ & _ & Hm & Hr).
  split.
  - intros HW j Hj. destruct (Nat.eq_dec j i) as [->|Hn].
    + now rewrite Hch.
    + rewrite (Hoth j Hn). now apply HW.
  - intros HB d. rewrite Hact, Hm, !clr_present_spec.
    intros ((Hd & _) & _). now apply HB.
Qed.

Lemma check_task_flag_keeps (w : state) (i : nat) : keeps w (check_task_flag w i).
Proof.
  unfold check_task_flag. destruct (negb _); [|apply keeps_refl].
  eapply keeps_trans; [|apply uipc_close_ch_locked_keeps].
  apply frame_keeps, upd_ch_frame. intros c. split; reflexivity.
Qed.

Lemma foldl_keeps {A : Type} (f : state → A → state) (l : list A) :
  (∀ w a, keeps w (f w a)) → ∀ w, keeps w (foldl f w l).
Proof.
  intros Hf. induction l as [|a l IH]; intros w; simpl; [apply keeps_refl|].
  eapply keeps_trans; [apply Hf | apply IH].
Qed.

Lemma uipc_check_task_flags_locked_keeps (w : state) :
  keeps w (uipc_check_task_flags_locked w).
Proof.
  unfold uipc_check_task_flags_locked. apply foldl_keeps.
  intros w0 i. apply check_task_flag_keeps.
Qed.

Lemma uipc_check_fd_locked_sets (i : nat) (io : acc_io) (w : state) :
  let w' := fst (uipc_check_fd_locked i io w) in
  running w' = running w ∧
  ((active_set w' = active_set w ∧ max_fd w' = max_fd w) ∨
   (∃ d, active_set w' = FD_SET d (active_set w) ∧
         max_fd w' = Z.max (max_fd w) d)).
Proof.
  unfold uipc_check_fd_locked.
  destruct (UIPC_CH_NUM <=? i)%nat; [simpl; auto|].
  unfold accept_server_socket, check_rx, call_cback.
  repeat (simpl; rewrite ?Nat.eqb_refl; simpl;
          match goal with
          | |- context [if ?b then _ else _] => destruct b eqn:?
          end);
    simpl; split; eauto.
Qed.

Lemma safe_isset_present (d : Z) (s : gset Z) :
  SAFE_FD_ISSET d s = true → d ≠ UIPC_DISCONNECTED.
Proof.
  unfold SAFE_FD_ISSET, UIPC_DISCONNECTED.
  destruct (Z.eqb_spec d (-1)); [discriminate | auto].
Qed.

Lemma uipc_check_fd_locked_keeps (i : nat) (io : acc_io) (w : state) :
  keeps w (fst (uipc_check_fd_locked i io w)).
Proof.
  destruct (uipc_check_fd_locked_sets i io w) as (Hr & Hsets).
  destruct (Nat.lt_ge_cases i UIPC_CH_NUM) as [Hi|Hi].
  2:{ unfold uipc_check_fd_locked. apply Nat.leb_le in Hi. rewrite Hi.
      apply keeps_refl. }
  destruct (uipc_check_fd_locked_fields i io w Hi)
    as (Hoth & Hsrv & _ & _ & _ & _ & _ & Hno & _ & _).
  split.
  - intros HW j Hj. destruct (Nat.eq_dec j i) as [->|Hn].
    + rewrite Hsrv. intros Hc.
      rewrite Hno by (unfold SAFE_FD_ISSET; rewrite Hc; reflexivity).
      destruct (check_rx_fields i w) as (-> & _). now apply HW.
    + rewrite (Hoth j Hn). now apply HW.
  - intros HB d. destruct Hsets as [[-> ->]|(d' & -> & ->)]; [apply HB|].
    unfold FD_SET. rewrite elem_of_union, elem_of_singleton.
    intros [->|Hd]; [lia|]. specialize (HB d Hd). lia.
Qed.

Lemma uipc_setup_server_locked_keeps
    (i : nat) (name : socket_name) (p : Z) (io : srv_io) (w : state) :
  keeps w (fst (uipc_setup_server_locked i name p io w)).
Proof.
  unfold uipc_setup_server_locked, create_server_socket.
  destruct (UIPC_CH_NUM <=? i)%nat; [apply keeps_refl|].
  destruct (Z.ltb_spec (io_socket io) 0) as [Hneg|Hpos]; [apply keeps_refl|].
  destruct (io_bind io <? 0); [apply frame_keeps; repeat split|].
  destruct (io_listen io <? 0); [apply frame_keeps; repeat split|].
  destruct (Z.ltb_spec (io_socket io) 0) as [Hneg|_]; [lia|].
  set (d := io_socket io) in *.
  split.
  - intros HW j Hj. simpl.
    destruct (Nat.eqb_spec j i) as [->|Hn]; simpl; rewrite ?Nat.eqb_refl;
      simpl.
    + unfold UIPC_DISCONNECTED. lia.
    + now apply HW.
  - intros HB x. simpl. unfold FD_SET.
    rewrite elem_of_union, elem_of_singleton.
    intros [->|Hx]; [lia|]. specialize (HB x Hx). lia.
Qed.

Lemma uipc_read_task_iter_keeps
    (sel : option (gset Z)) (io : nat -> acc_io) (w : state) :
  keeps w (uipc_read_task_iter sel io w).
Proof.
  unfold uipc_read_task_iter.
  destruct sel as [ready|]; [|apply frame_keeps; repeat split].
  match goal with
  | |- context [if ?b then ?x else _] => destruct b; set (ws := x)
  end.
  { apply frame_keeps; repeat split. }
  apply keeps_trans with (w2 := ws); [apply frame_keeps; repeat split|].
  apply keeps_trans with (w2 := uipc_check_interrupt_locked ws).
  { unfold uipc_check_interrupt_locked.
    destruct (SAFE_FD_ISSET _ _); apply frame_keeps; repeat split. }
  eapply keeps_trans; [apply uipc_check_task_flags_locked_keeps|].
  eapply keeps_trans; [apply uipc_check_fd_locked_keeps|].
  apply foldl_keeps. intros w0 i.
  destruct (negb _); [apply uipc_check_fd_locked_keeps | apply keeps_refl].
Qed.

Lemma run_keeps (o : op) (w w' : state) : run o w = Some w' → keeps w w'.
Proof.
  destruct o; simpl.
  - intros [= <-]. unfold UIPC_Open.
    destruct (UIPC_CH_NUM <=? ch_id)%nat; [apply keeps_refl|].
    destruct (negb _); [apply keeps_refl|]. simpl.
    destruct (ch_id =? UIPC_CH_ID_AV_CTRL)%nat;
      [apply uipc_setup_server_locked_keeps|].
    destruct (ch_id =? UIPC_CH_ID_AV_AUDIO)%nat;
      [apply uipc_setup_server_locked_keeps | apply keeps_refl].
  - intros [= <-]. unfold UIPC_Close. destruct (negb _).
    + apply frame_keeps, uipc_close_locked_frame.
    + split; auto.
  - intros [= <-]. apply frame_keeps. repeat split.
  - destruct (UIPC_Read ch_id len script w) as [[w1 r]|] eqn:E;
      [|discriminate].
    intros [= <-]. unfold UIPC_Read in E.
    destruct (UIPC_CH_NUM <=? ch_id)%nat;
      [inversion E; subst; apply keeps_refl|].
    destruct (_ =? UIPC_DISCONNECTED);
      [inversion E; subst; apply keeps_refl|].
    eapply frame_keeps, read_loop_frame; exact E.
  - destruct (UIPC_Ioctl ch_id request param script w) as [[w1 b]|] eqn:E;
      [|discriminate].
    intros [= <-]. unfold UIPC_Ioctl in E. destruct request.
    + destruct (uipc_flush_locked ch_id script w) as [w2|] eqn:F;
        [|discriminate].
      inversion E; subst. eapply frame_keeps, uipc_flush_locked_frame; exact F.
    + inversion E; subst. apply frame_keeps, upd_ch_frame.
      intros c. split; reflexivity.
    + destruct (negb _); inversion E; subst; [|apply keeps_refl].
      split; auto.
      intros HB d. simpl. unfold FD_CLR. rewrite elem_of_difference.
      intros [Hd _]. now apply HB.
    + inversion E; subst. apply frame_keeps, upd_ch_frame.
      intros c. split; reflexivity.
    + inversion E; subst. apply keeps_refl.
  - intros [= <-]. apply uipc_read_task_iter_keeps.
Qed.

Lemma run_all_keeps (ops : list op) :
  ∀ w w', run_all ops w = Some w' → keeps w w'.
Proof.
  induction ops as [|o ops IH]; intros w w'; simpl.
  - intros [= <-]. apply keeps_refl.
  - destruct (run o w) as [w1|] eqn:E; [|discriminate].
    intros H. eapply keeps_trans; [eapply run_keeps; exact E | now apply IH].
Qed.

Lemma uipc_main_init_keeps (sp : Z * Z) (behind : nat -> tUIPC_CHAN) :
  well_formed (fst (uipc_main_init 0 sp behind)) ∧
  bounded (fst (uipc_main_init 0 sp behind)).
Proof.
  unfold uipc_main_init. simpl. split.
  - intros i Hi. simpl. apply Nat.ltb_lt in Hi. now rewrite Hi.
  - intros d. simpl. unfold FD_SET.
    rewrite elem_of_union, elem_of_singleton.
    intros [->|Hd]; [lia | now apply not_elem_of_empty in Hd].
Qed.



(** X3: in every state reached from a successful initialisation by operations
    that are handed descriptors below FD_SETSIZE only, and that detach a
    peer by a channel id of the table, every member of the active set lies
    between 0 and max_fd, and max_fd below FD_SETSIZE: the select of the
    event loop, which is given max_fd + 1, stays within the descriptor set
    and reports every active descriptor that is ready. *)
Theorem reachable_max_fd_covers_active_set (w : state) :
  reachable_in_range w →
  max_fd w < FD_SETSIZE ∧
  (∀ d, d ∈ active_set w → 0 <= d <= max_fd w) ∧
  (∀ ready, read_set (after_select ready w) = active_set w ∩ ready).
Proof.
  intros (sp & behind & ops & Hsp & Hops & Hrun).
  assert (HB : bounded w)
    by (apply (proj2 (run_all_keeps ops _ _ Hrun)), uipc_main_init_keeps).
  assert (HR : ranged w)
    by (eapply run_all_ranged; [exact Hops | | exact Hrun];
        now apply uipc_main_init_ranged).
  destruct HR as (_ & Hm & _ & Hin).
  split; [exact Hm|]. split.
  - intros d Hd. specialize (HB d Hd). destruct (Hin d Hd) as [H0 _]. lia.
  - intros ready. unfold after_select, select. simpl.
    apply set_eq. intros d. rewrite elem_of_filter, !elem_of_intersection.
    split; [tauto|]. intros [Ha Hr]. specialize (HB d Ha). split; [lia | auto].
Qed.

Lemma reachable_max_fd_covers_active_set_witness :
  read_set (after_select {[ 7; 8; 9 ]} st_connected)
  = active_set st_connected ∩ {[ 7; 8; 9 ]}.
Proof.
  assert (Hr : reachable_in_range st_connected).
  { exists (3, 4), (fun _ => zero_chan),
      [OpOpen UIPC_CH_ID_AV_CTRL 100 (mkSrvIo 5 0 0);
       OpOpen UIPC_CH_ID_AV_AUDIO 200 (mkSrvIo 6 0 0);
       OpTurn (Some {[ 3; 5; 6 ]}) sample_accepts].
    split; [vm_compute; split; discriminate || reflexivity|].
    split; [|vm_compute; reflexivity].
    constructor; [reflexivity|]. constructor; [reflexivity|].
    constructor; [|constructor].
    intros i Hi. right. unfold in_range, FD_SETSIZE.
    destruct i as [|[|]]; [| |unfold UIPC_CH_NUM in Hi; lia];
      vm_compute; split; discriminate || reflexivity. }
  apply (proj2 (proj2 (reachable_max_fd_covers_active_set st_connected Hr))).
Defined.


(** ** Initialisation *)

(** X4: a successful uipc_main_init returns 0 and leaves every channel of the
    table Closed, the multiplexer not running, and the active set holding
    exactly the read end of the wakeup signal, so that the invariant of the
    specification holds at the start. *)
Theorem uipc_main_init_establishes_invariant
    (sp_ret : Z) (sp : Z * Z) (behind : nat -> tUIPC_CHAN) :
  0 <= sp_ret →
  let w := fst (uipc_main_init sp_ret sp behind) in
  snd (uipc_main_init sp_ret sp behind) = 0 ∧
  running w = 0 ∧ signal_fds w = sp ∧
  (∀ i, (i < UIPC_CH_NUM)%nat →
        srvfd (ch w i) = UIPC_DISCONNECTED ∧ fd (ch w i) = UIPC_DISCONNECTED ∧
        cback (ch w i) = 0 ∧ task_evt_flags (ch w i) = 0) ∧
  (∀ d, d ∈ active_set w ↔ d = fst sp) ∧
  active_iff w.
Proof.
  intros Hret w. subst w. unfold uipc_main_init.
  destruct (Z.ltb_spec sp_ret 0) as [Hneg|_]; [lia|]. cbn [fst snd].
  assert (Hact : ∀ d, d ∈ FD_SET (fst sp) (∅ : gset Z) ↔ d = fst sp).
  { intros d. unfold FD_SET. rewrite elem_of_union, elem_of_singleton.
    split; [intros [E|E]; [exact E | now apply not_elem_of_empty in E] | auto]. }
  match goal with
  | |- context [mkState _ _ _ _ _ ?f _ _] =>
      assert (Hslot : ∀ i, (i < UIPC_CH_NUM)%nat →
                f i = mkChan UIPC_DISCONNECTED UIPC_DISCONNECTED 0 0 0)
        by (intros i Hi; cbv beta; apply Nat.ltb_lt in Hi; now rewrite Hi)
  end.
  cbn [running signal_fds ch active_set].
  split; [reflexivity|]. split; [reflexivity|]. split; [reflexivity|].
  split; [intros i Hi; rewrite (Hslot i Hi); auto|].
  split; [exact Hact|].
  intros d. unfold active_iff, endpoint_of.
  cbn [active_set signal_fds ch]. rewrite Hact.
  split; [auto|]. intros [E|(Hne & i & Hi & E)]; [exact E|].
  exfalso. rewrite (Hslot i Hi) in E. cbn in E. destruct E; congruence.
Qed.

Lemma uipc_main_init_establishes_invariant_witness :
  active_iff st_init ∧ ∀ d, d ∈ active_set st_init ↔ d = 3.
Proof.
  destruct (uipc_main_init_establishes_invariant 0 (3, 4) (fun _ => zero_chan)
              ltac:(lia)) as (_ & _ & _ & _ & Hact & Hiff).
  split; [exact Hiff | exact Hact].
Defined.

(** X5: UIPC_Init drops the result of uipc_main_init.  When the socket pair
    cannot be created the multiplexer is marked running all the same, the
    active set is empty, and the zeroed slots read as open: UIPC_Open then
    refuses every channel id and creates no socket. *)
Theorem UIPC_Init_ignores_failure
    (sp_ret : Z) (sp : Z * Z) (behind : nat -> tUIPC_CHAN) (pc_ret : Z) :
  sp_ret < 0 →
  let w := UIPC_Init sp_ret sp behind pc_ret in
  running w = 1 ∧
  (∀ d, d ∉ active_set w) ∧
  ∀ ch_id p_cback io, UIPC_Open ch_id p_cback io w = (w, false).
Proof.
  intros Hret w. subst w.
  unfold UIPC_Init, uipc_start_main_server_thread, uipc_main_init.
  destruct (Z.ltb_spec sp_ret 0) as [_|Hpos]; [|lia]. cbn [fst].
  assert (Hrun : ∀ x : state, fst (if pc_ret <? 0 then (x, -1) else (x, 0)) = x)
    by (intros x; destruct (pc_ret <? 0); reflexivity).
  rewrite Hrun. repeat split.
  - cbn. apply not_elem_of_empty.
  - intros ch_id p_cback io. unfold UIPC_Open.
    destruct (Nat.leb_spec UIPC_CH_NUM ch_id) as [Hge|Hlt]; [reflexivity|].
    cbn [ch set_running]. apply Nat.ltb_lt in Hlt. rewrite Hlt. reflexivity.
Qed.

Lemma UIPC_Init_ignores_failure_witness :
  UIPC_Open UIPC_CH_ID_AV_CTRL 100 (mkSrvIo 5 0 0)
            (UIPC_Init (-1) (0, 0) (fun _ => zero_chan) 0)
  = (UIPC_Init (-1) (0, 0) (fun _ => zero_chan) 0, false).
Proof.
  destruct (UIPC_Init_ignores_failure (-1) (0, 0) (fun _ => zero_chan) 0
              ltac:(lia)) as (_ & _ & H).
  apply H.
Defined.

(** ** Opening a channel *)

(** X6: create_server_socket returns -1 or the descriptor of the socket it
    created, which is not negative; when it returns -1 after having
    created a socket, it has closed that socket again. *)
Theorem create_server_socket_does_not_leak
    (name : socket_name) (io : srv_io) (w : state) :
  let r := snd (create_server_socket name io w) in
  let w' := fst (create_server_socket name io w) in
  (r = io_socket io ∧ 0 <= r ∧ 0 <= io_bind io ∧ 0 <= io_listen io ∧
   trace w' = trace w ++ [SysSocket name r]) ∨
  (r = -1 ∧ io_socket io < 0 ∧ w' = w) ∨
  (r = -1 ∧ 0 <= io_socket io ∧ (io_bind io < 0 ∨ io_listen io < 0) ∧
   trace w' = trace w ++ [SysSocket name (io_socket io);
                          SysClose (io_socket io)]).
Proof.
  unfold create_server_socket.
  destruct (Z.ltb_spec (io_socket io) 0) as [Hs|Hs]; [right; left; auto|].
  destruct (Z.ltb_spec (io_bind io) 0) as [Hb|Hb].
  { right. right. cbn. rewrite <- app_assoc. auto 10. }
  destruct (Z.ltb_spec (io_listen io) 0) as [Hl|Hl].
  { right. right. cbn. rewrite <- app_assoc. auto 10. }
  left. cbn. auto 10.
Qed.

Lemma uipc_setup_server_locked_fields
    (i : nat) (name : socket_name) (p : Z) (io : srv_io) (w : state) :
  (i < UIPC_CH_NUM)%nat →
  0 <= io_socket io → 0 <= io_bind io → 0 <= io_listen io →
  let s := io_socket io in
  let w' := fst (uipc_setup_server_locked i name p io w) in
  snd (uipc_setup_server_locked i name p io w) = 0 ∧
  ch w' i = mkChan s (fd (ch w i)) DEFAULT_READ_POLL_TMO_MS
                   (task_evt_flags (ch w i)) p ∧
  (∀ j, j ≠ i → ch w' j = ch w j) ∧
  active_set w' = FD_SET s (active_set w) ∧
  max_fd w' = Z.max (max_fd w) s ∧
  trace w' = trace w ++ [SysSocket name s; SysSendSignal] ∧
  pipe w' = S (pipe w) ∧ running w' = running w ∧
  signal_fds w' = signal_fds w.
Proof.
  intros Hi Hs Hb Hl s w'. subst s w'.
  unfold uipc_setup_server_locked, create_server_socket.
  destruct (Nat.leb_spec UIPC_CH_NUM i) as [Hge|_]; [lia|].
  destruct (Z.ltb_spec (io_socket io) 0) as [|_]; [lia|].
  destruct (Z.ltb_spec (io_bind io) 0) as [|_]; [lia|].
  destruct (Z.ltb_spec (io_listen io) 0) as [|_]; [lia|].
  destruct (Z.ltb_spec (io_socket io) 0) as [|_]; [lia|].
  cbn. rewrite !Nat.eqb_refl. cbn. rewrite <- app_assoc.
  repeat split; auto.
  intros j Hj. apply Nat.eqb_neq in Hj. now rewrite Hj.
Qed.

(** X7: UIPC_Open on a Closed channel of the table, when the listening
    socket can be created, returns true, installs the socket as the server
    endpoint and adds it to the active set, registers the callback, resets
    the read timeout to its default, leaves the other slots alone and
    sends one wakeup byte.  A further UIPC_Open of the same channel returns
    false and changes nothing, as does UIPC_Open with an id outside the
    table. *)
Theorem UIPC_Open_provisions_closed_channel
    (ch_id : nat) (p_cback : Z) (io : srv_io) (w : state) :
  (ch_id < UIPC_CH_NUM)%nat →
  srvfd (ch w ch_id) = UIPC_DISCONNECTED →
  0 <= io_socket io → 0 <= io_bind io → 0 <= io_listen io →
  let s := io_socket io in
  let w' := fst (UIPC_Open ch_id p_cback io w) in
  snd (UIPC_Open ch_id p_cback io w) = true ∧
  ch w' ch_id = mkChan s (fd (ch w ch_id)) DEFAULT_READ_POLL_TMO_MS
                       (task_evt_flags (ch w ch_id)) p_cback ∧
  (∀ j, j ≠ ch_id → ch w' j = ch w j) ∧
  active_set w' = FD_SET s (active_set w) ∧
  trace w' =
    trace w ++
    [SysSocket (if (ch_id =? UIPC_CH_ID_AV_CTRL)%nat
                then A2DP_CTRL_PATH else A2DP_DATA_PATH) s;
     SysSendSignal] ∧
  pipe w' = S (pipe w) ∧
  (∀ p2 io2, UIPC_Open ch_id p2 io2 w' = (w', false)) ∧
  (∀ j p2 io2, (UIPC_CH_NUM <= j)%nat → UIPC_Open j p2 io2 w' = (w', false)).
Proof.
  intros Hi Hclosed Hs Hb Hl s w'.
  assert (Hw' : ∃ name,
            name = (if (ch_id =? UIPC_CH_ID_AV_CTRL)%nat
                    then A2DP_CTRL_PATH else A2DP_DATA_PATH) ∧
            UIPC_Open ch_id p_cback io w =
            (fst (uipc_setup_server_locked ch_id name p_cback io w), true)).
  { unfold UIPC_Open.
    destruct (Nat.leb_spec UIPC_CH_NUM ch_id) as [Hge|_]; [lia|].
    rewrite Hclosed. cbn [negb].
    change (UIPC_DISCONNECTED =? UIPC_DISCONNECTED) with true. cbn [negb].
    destruct (ch_id =? UIPC_CH_ID_AV_CTRL)%nat eqn:Ec; [eauto|].
    destruct (Nat.eqb_spec ch_id UIPC_CH_ID_AV_AUDIO) as [Ea|Ea]; [eauto|].
    exfalso. apply Nat.eqb_neq in Ec.
    unfold UIPC_CH_ID_AV_CTRL, UIPC_CH_ID_AV_AUDIO, UIPC_CH_NUM in *. lia. }
  destruct Hw' as (name & Hname & Hopen).
  subst w'. rewrite Hopen. cbn [fst snd]. rewrite <- Hname.
  destruct (uipc_setup_server_locked_fields ch_id name p_cback io w
              Hi Hs Hb Hl)
    as (_ & Hch & Hoth & Hact & _ & Htr & Hp & _).
  repeat split; auto.
  - intros p2 io2. unfold UIPC_Open.
    destruct (Nat.leb_spec UIPC_CH_NUM ch_id) as [Hge|_]; [lia|].
    rewrite Hch. cbn [srvfd]. subst s.
    destruct (Z.eqb_spec (io_socket io) UIPC_DISCONNECTED) as [E|_];
      [unfold UIPC_DISCONNECTED in E; lia | reflexivity].
  - intros j p2 io2 Hj. unfold UIPC_Open. apply Nat.leb_le in Hj.
    now rewrite Hj.
Qed.

Lemma UIPC_Open_provisions_closed_channel_witness :
  ch (fst (UIPC_Open UIPC_CH_ID_AV_CTRL 100 (mkSrvIo 5 0 0) st_init))
     UIPC_CH_ID_AV_CTRL = mkChan 5 (-1) DEFAULT_READ_POLL_TMO_MS 0 100.
Proof.
  destruct (UIPC_Open_provisions_closed_channel UIPC_CH_ID_AV_CTRL 100
              (mkSrvIo 5 0 0) st_init
              ltac:(vm_compute; lia) ltac:(reflexivity)
              ltac:(vm_compute; discriminate) ltac:(vm_compute; discriminate)
              ltac:(vm_compute; discriminate)) as (_ & H & _).
  exact H.
Defined.


(** ** The accept path *)

(** X8: when the server endpoint of a channel is ready and the accept fails
    (nothing is pending, or accept returns -1), uipc_check_fd_locked
    returns -1, invokes no callback and leaves the server endpoint and the
    active set as they are; the peer slot reads disconnected afterwards,
    whatever it held, and no descriptor is closed. *)
Theorem accept_failure_keeps_listening
    (ch_id : nat) (io : acc_io) (w : state) :
  (ch_id < UIPC_CH_NUM)%nat →
  SAFE_FD_ISSET (srvfd (ch w ch_id)) (read_set w) = true →
  accept_result io = -1 →
  let w' := fst (uipc_check_fd_locked ch_id io w) in
  snd (uipc_check_fd_locked ch_id io w) = -1 ∧
  srvfd (ch w' ch_id) = srvfd (ch w ch_id) ∧
  fd (ch w' ch_id) = UIPC_DISCONNECTED ∧
  (∀ j, j ≠ ch_id → ch w' j = ch w j) ∧
  active_set w' = active_set w ∧
  trace w' =
    trace w ++
    opt_act (negb (io_poll io =? 0)) (SysAccept (srvfd (ch w ch_id)) (-1)).
Proof.
  intros Hi Hready Hacc w'. subst w'.
  unfold uipc_check_fd_locked, accept_server_socket.
  unfold accept_result in Hacc.
  destruct (Nat.leb_spec UIPC_CH_NUM ch_id) as [Hge|_]; [lia|].
  rewrite Hready.
  assert (Hne : ∀ j, j ≠ ch_id → Nat.eqb j ch_id = false)
    by (intros j Hj; now apply Nat.eqb_neq).
  destruct (io_poll io =? 0).
  - cbn. rewrite Nat.eqb_refl, app_nil_r. cbn. repeat split; auto.
    intros j Hj. now rewrite (Hne j Hj).
  - destruct (Z.eqb_spec (io_accept io) (-1)) as [E|E]; [|congruence].
    rewrite E. cbn. rewrite Nat.eqb_refl. cbn. repeat split; auto.
    intros j Hj. now rewrite (Hne j Hj).
Qed.

Lemma accept_failure_keeps_listening_witness :
  let w := after_select {[ 5 ]} st_listening in
  fd (ch (fst (uipc_check_fd_locked UIPC_CH_ID_AV_CTRL (mkAccIo 1 (-1) 0) w))
         UIPC_CH_ID_AV_CTRL) = UIPC_DISCONNECTED ∧
  snd (uipc_check_fd_locked UIPC_CH_ID_AV_CTRL (mkAccIo 1 (-1) 0) w) = -1.
Proof.
  intros w.
  assert (Hr : SAFE_FD_ISSET (srvfd (ch w UIPC_CH_ID_AV_CTRL)) (read_set w) = true)
    by (vm_compute; reflexivity).
  destruct (accept_failure_keeps_listening UIPC_CH_ID_AV_CTRL
              (mkAccIo 1 (-1) 0) w ltac:(vm_compute; lia) Hr eq_refl)
    as (H1 & _ & H2 & _).
  split; [exact H2 | exact H1].
Defined.

(** X9: when the server endpoint of a channel is ready and accept hands
    back a descriptor, uipc_check_fd_locked returns 0 and installs the
    descriptor as the peer endpoint.  With a callback registered it emits
    the Open event and, if the descriptor is positive, adds it to the
    active set; without a callback it emits no event and leaves the active
    set as it is.  The RxDataReady event follows in the same call only if
    the number of the new descriptor is in the read set of this turn. *)
Theorem accept_success_installs_peer
    (ch_id : nat) (io : acc_io) (w : state) :
  (ch_id < UIPC_CH_NUM)%nat →
  SAFE_FD_ISSET (srvfd (ch w ch_id)) (read_set w) = true →
  0 <= accept_result io →
  let d := accept_result io in
  let cb := cback (ch w ch_id) in
  let w' := fst (uipc_check_fd_locked ch_id io w) in
  snd (uipc_check_fd_locked ch_id io w) = 0 ∧
  srvfd (ch w' ch_id) = srvfd (ch w ch_id) ∧
  fd (ch w' ch_id) = d ∧
  (∀ j, j ≠ ch_id → ch w' j = ch w j) ∧
  active_set w' =
    (if (0 <? d) && negb (cb =? 0) then FD_SET d (active_set w)
     else active_set w) ∧
  trace w' =
    trace w ++
    [SysAccept (srvfd (ch w ch_id)) d; SysSetsockopt d] ++
    opt_act (negb (cb =? 0)) (Callback cb ch_id UIPC_OPEN_EVT) ++
    opt_act (SAFE_FD_ISSET d (read_set w) && negb (cb =? 0))
            (Callback cb ch_id UIPC_RX_DATA_READY_EVT).
Proof.
  intros Hi Hready Hacc d cb w'. subst d cb w'.
  unfold uipc_check_fd_locked, accept_server_socket, check_rx, call_cback.
  unfold accept_result in *.
  destruct (Nat.leb_spec UIPC_CH_NUM ch_id) as [Hge|_]; [lia|].
  rewrite Hready.
  assert (Hne : ∀ j, j ≠ ch_id → Nat.eqb j ch_id = false)
    by (intros j Hj; now apply Nat.eqb_neq).
  destruct (io_poll io =? 0); [lia|].
  destruct (Z.eqb_spec (io_accept io) (-1)) as [E|E]; [lia|].
  set (d := io_accept io) in *.
  destruct (Z.ltb_spec d 0) as [Hneg|_]; [lia|].
  cbn. rewrite !Nat.eqb_refl. cbn.
  destruct (d <? 0) eqn:Hlt0; [apply Z.ltb_lt in Hlt0; lia|].
  destruct (cback (ch w ch_id) =? 0) eqn:Hcb;
    destruct (0 <? d) eqn:Hpos; cbn; rewrite ?Nat.eqb_refl; cbn;
    rewrite ?Hlt0, ?Hcb; cbn; rewrite ?Nat.eqb_refl; cbn;
    destruct (SAFE_FD_ISSET d (read_set w)) eqn:Hrx; cbn;
    rewrite ?Hcb; cbn; rewrite <- ?app_assoc; cbn;
    repeat split; auto;
    try (intros j Hj; now rewrite (Hne j Hj));
    rewrite Nat.eqb_refl; reflexivity.
Qed.

Lemma accept_success_installs_peer_witness :
  let w := after_select {[ 5 ]} st_listening in
  fd (ch (fst (uipc_check_fd_locked UIPC_CH_ID_AV_CTRL (mkAccIo 1 7 0) w))
         UIPC_CH_ID_AV_CTRL) = 7 ∧
  snd (uipc_check_fd_locked UIPC_CH_ID_AV_CTRL (mkAccIo 1 7 0) w) = 0.
Proof.
  intros w.
  assert (Hr : SAFE_FD_ISSET (srvfd (ch w UIPC_CH_ID_AV_CTRL)) (read_set w) = true)
    by (vm_compute; reflexivity).
  destruct (accept_success_installs_peer UIPC_CH_ID_AV_CTRL
              (mkAccIo 1 7 0) w ltac:(vm_compute; lia) Hr
              ltac:(vm_compute; discriminate))
    as (H1 & _ & H2 & _).
  split; [exact H2 | exact H1].
Defined.

(** ** Pending disconnects and the end of the task *)

(** X10: after uipc_check_task_flags_locked no channel of the table has its
    pending-disconnect flag set.  A channel whose flag was set is Closed
    and its endpoints have left the active set; a channel whose flag was
    not set keeps its endpoints.  The callbacks stay registered, and the
    actions performed are the teardowns of the flagged channels in the
    order of the table. *)
Theorem pending_disconnects_are_carried_out (w : state) :
  let w' := uipc_check_task_flags_locked w in
  (∀ i, (i < UIPC_CH_NUM)%nat →
        pending (ch w' i) = false ∧
        cback (ch w' i) = cback (ch w i) ∧
        (pending (ch w i) = true →
         srvfd (ch w' i) = UIPC_DISCONNECTED ∧
         fd (ch w' i) = UIPC_DISCONNECTED ∧
         (srvfd (ch w i) ≠ UIPC_DISCONNECTED → srvfd (ch w i) ∉ active_set w') ∧
         (fd (ch w i) ≠ UIPC_DISCONNECTED → fd (ch w i) ∉ active_set w')) ∧
        (pending (ch w i) = false →
         srvfd (ch w' i) = srvfd (ch w i) ∧ fd (ch w' i) = fd (ch w i))) ∧
  (∀ d, d ∈ active_set w' → d ∈ active_set w) ∧
  trace w' = trace w ++ pending_teardowns w.
Proof.
  intros w'.
  destruct (uipc_check_task_flags_locked_fields w) as (Htr & _ & _ & Hch).
  fold w' in Htr, Hch.
  assert (Hact : ∀ d, d ∈ active_set w' →
            d ∈ active_set w ∧
            ∀ i, (i < UIPC_CH_NUM)%nat → pending (ch w i) = true →
                 (srvfd (ch w i) ≠ UIPC_DISCONNECTED → d ≠ srvfd (ch w i)) ∧
                 (fd (ch w i) ≠ UIPC_DISCONNECTED → d ≠ fd (ch w i))).
  { subst w'. unfold uipc_check_task_flags_locked.
    change (seq 0 UIPC_CH_NUM) with [0%nat; 1%nat]. cbn [foldl].
    set (w1 := check_task_flag w 0).
    destruct (check_task_flag_fields 0 w ltac:(unfold UIPC_CH_NUM; lia))
      as (Ho0 & _ & _ & _ & _ & Ha0 & _).
    destruct (check_task_flag_fields 1 w1 ltac:(unfold UIPC_CH_NUM; lia))
      as (_ & _ & _ & _ & _ & Ha1 & _).
    fold w1 in Ho0, Ha0.
    assert (E1 : ch w1 1%nat = ch w 1%nat) by (apply Ho0; discriminate).
    rewrite E1 in Ha1.
    intros d Hd. rewrite Ha1 in Hd.
    assert (Hd1 : d ∈ active_set w1 ∧
              (pending (ch w 1%nat) = true →
               (srvfd (ch w 1%nat) ≠ UIPC_DISCONNECTED → d ≠ srvfd (ch w 1%nat)) ∧
               (fd (ch w 1%nat) ≠ UIPC_DISCONNECTED → d ≠ fd (ch w 1%nat)))).
    { destruct (pending (ch w 1%nat)); [|split; [exact Hd | discriminate]].
      rewrite !clr_present_spec in Hd. destruct Hd as ((Hd & Hs) & Hf).
      split; [exact Hd|]. intros _. split; intros Hp E; subst d.
      - destruct Hs; congruence.
      - destruct Hf; congruence. }
    destruct Hd1 as (Hd1 & H1). rewrite Ha0 in Hd1.
    assert (Hd0 : d ∈ active_set w ∧
              (pending (ch w 0%nat) = true →
               (srvfd (ch w 0%nat) ≠ UIPC_DISCONNECTED → d ≠ srvfd (ch w 0%nat)) ∧
               (fd (ch w 0%nat) ≠ UIPC_DISCONNECTED → d ≠ fd (ch w 0%nat)))).
    { destruct (pending (ch w 0%nat)); [|split; [exact Hd1 | discriminate]].
      rewrite !clr_present_spec in Hd1. destruct Hd1 as ((Hd1 & Hs) & Hf).
      split; [exact Hd1|]. intros _. split; intros Hp E; subst d.
      - destruct Hs; congruence.
      - destruct Hf; congruence. }
    destruct Hd0 as (Hd0 & H0). split; [exact Hd0|].
    intros i Hi. destruct i as [|[|]]; [exact H0 | exact H1|].
    unfold UIPC_CH_NUM in Hi. lia. }
  split; [|split; [intros d Hd; apply (Hact d Hd) | exact Htr]].
  intros i Hi. destruct (Hch i Hi) as (Es & Ef & Ec & Ep).
  split; [exact Ep|]. split; [exact Ec|]. split.
  - intros Hp. rewrite Hp in Es, Ef. repeat split; auto.
    + intros Hs Hin. now apply (proj1 (proj2 (Hact _ Hin) i Hi Hp)).
    + intros Hf Hin. now apply (proj2 (proj2 (Hact _ Hin) i Hi Hp)).
  - intros Hp. rewrite Hp in Es, Ef. auto.
Qed.

Lemma uipc_main_cleanup_fields (w : state) :
  let w' := uipc_main_cleanup w in
  (∀ i, (i < UIPC_CH_NUM)%nat →
        srvfd (ch w' i) = UIPC_DISCONNECTED ∧ fd (ch w' i) = UIPC_DISCONNECTED) ∧
  trace w' =
    trace w ++
    [SysClose (fst (signal_fds w)); SysClose (snd (signal_fds w))] ++
    flat_map (fun i => teardown_trace i (ch w i)) (seq 0 UIPC_CH_NUM).
Proof.
  unfold uipc_main_cleanup.
  change (seq 0 UIPC_CH_NUM) with [0%nat; 1%nat]. cbn [foldl flat_map].
  set (w0 := emit _ (emit _ w)).
  assert (E0 : ch w0 = ch w) by reflexivity.
  assert (T0 : trace w0 = trace w ++
            [SysClose (fst (signal_fds w)); SysClose (snd (signal_fds w))])
    by (subst w0; cbn; now rewrite <- app_assoc).
  destruct (uipc_close_ch_locked_fields 0 w0 ltac:(unfold UIPC_CH_NUM; lia))
    as (_ & Hc0 & Ho0 & _ & Ht0 & _).
  set (w1 := fst (uipc_close_ch_locked 0 w0)) in *.
  destruct (uipc_close_ch_locked_fields 1 w1 ltac:(unfold UIPC_CH_NUM; lia))
    as (_ & Hc1 & Ho1 & _ & Ht1 & _).
  set (w2 := fst (uipc_close_ch_locked 1 w1)) in *.
  assert (E1 : ch w1 1%nat = ch w 1%nat)
    by (rewrite (Ho0 1%nat) by discriminate; now rewrite E0).
  split.
  - intros i Hi. destruct i as [|[|]]; [| |unfold UIPC_CH_NUM in Hi; lia].
    + rewrite (Ho1 0%nat) by discriminate. now rewrite Hc0.
    + now rewrite Hc1.
  - rewrite Ht1, Ht0, T0, E1, E0, app_nil_r, <- !app_assoc. reflexivity.
Qed.

(** X11: uipc_main_cleanup closes both descriptors of the wakeup signal and
    tears down every channel: afterwards every channel of the table is
    Closed, and every endpoint that was present has been closed. *)
Theorem uipc_main_cleanup_closes_everything (w : state) :
  let w' := uipc_main_cleanup w in
  (∀ i, (i < UIPC_CH_NUM)%nat →
        srvfd (ch w' i) = UIPC_DISCONNECTED ∧ fd (ch w' i) = UIPC_DISCONNECTED) ∧
  (∃ t, trace w' = trace w ++ t ∧
        In (SysClose (fst (signal_fds w))) t ∧
        In (SysClose (snd (signal_fds w))) t ∧
        ∀ i d, (i < UIPC_CH_NUM)%nat → d ≠ UIPC_DISCONNECTED →
               d = srvfd (ch w i) ∨ d = fd (ch w i) → In (SysClose d) t).
Proof.
  intros w'. destruct (uipc_main_cleanup_fields w) as (Hch & Htr).
  split; [exact Hch|]. eexists. split; [exact Htr|].
  split; [cbn; auto|]. split; [cbn; auto|].
  intros i d Hi Hd Hend. right. right.
  apply in_flat_map. exists i. split.
  - apply in_seq. lia.
  - unfold teardown_trace, opt_act, present.
    destruct Hend as [-> | ->]; apply Z.eqb_neq in Hd; rewrite Hd; cbn.
    + now left.
    + destruct (srvfd (ch w i) =? UIPC_DISCONNECTED); cbn; auto.
Qed.


(** ** The task as a whole *)

Lemma uipc_read_task_iter_stages
    (ready : gset Z) (io : nat -> acc_io) (w : state) :
  size (read_set (after_select ready w)) ≠ 0%nat →
  uipc_read_task_iter (Some ready) io w =
  fst (uipc_check_fd_locked UIPC_CH_ID_AV_CTRL (io UIPC_CH_ID_AV_CTRL)
    (fst (uipc_check_fd_locked UIPC_CH_ID_AV_AUDIO (io UIPC_CH_ID_AV_AUDIO)
      (uipc_check_task_flags_locked
        (uipc_check_interrupt_locked (after_select ready w)))))).
Proof.
  intros Hsize. unfold uipc_read_task_iter.
  change (set_read_set _ (set_read_set (active_set w) w))
    with (after_select ready w).
  apply Nat.eqb_neq in Hsize. rewrite Hsize. reflexivity.
Qed.

Lemma uipc_read_task_iter_idle
    (ready : gset Z) (io : nat -> acc_io) (w : state) :
  size (read_set (after_select ready w)) = 0%nat →
  uipc_read_task_iter (Some ready) io w = after_select ready w.
Proof.
  intros Hsize. unfold uipc_read_task_iter.
  change (set_read_set _ (set_read_set (active_set w) w))
    with (after_select ready w).
  apply Nat.eqb_eq in Hsize. rewrite Hsize. reflexivity.
Qed.

Lemma uipc_close_ch_locked_running (i : nat) (w : state) :
  running (fst (uipc_close_ch_locked i w)) = running w.
Proof.
  destruct (Nat.lt_ge_cases i UIPC_CH_NUM) as [Hi|Hi].
  - now destruct (uipc_close_ch_locked_fields i w Hi)
      as (_ & _ & _ & _ & _ & _ & _ & _ & _ & Hr).
  - unfold uipc_close_ch_locked. apply Nat.leb_le in Hi. now rewrite Hi.
Qed.

Lemma uipc_read_task_iter_running
    (sel : option (gset Z)) (io : nat -> acc_io) (w : state) :
  running (uipc_read_task_iter sel io w) = running w.
Proof.
  unfold uipc_read_task_iter. destruct sel as [ready|]; [|reflexivity].
  match goal with
  | |- context [if ?b then ?x else _] => destruct b; set (ws := x)
  end; [reflexivity|].
  assert (Hfold : ∀ l w0,
            running (foldl (fun w1 ch_id =>
                       if negb (ch_id =? UIPC_CH_ID_AV_AUDIO)%nat
                       then fst (uipc_check_fd_locked ch_id (io ch_id) w1)
                       else w1) w0 l) = running w0).
  { induction l as [|i l IH]; intros w0; simpl; [reflexivity|].
    rewrite IH. destruct (negb _); [|reflexivity].
    apply uipc_check_fd_locked_sets. }
  rewrite Hfold.
  rewrite (proj1 (uipc_check_fd_locked_sets _ _ _)).
  unfold uipc_check_task_flags_locked.
  assert (Hflags : ∀ l w0, running (foldl check_task_flag w0 l) = running w0).
  { induction l as [|i l IH]; intros w0; simpl; [reflexivity|].
    rewrite IH. unfold check_task_flag. destruct (negb _); [|reflexivity].
    now rewrite uipc_close_ch_locked_running. }
  rewrite Hflags. unfold uipc_check_interrupt_locked.
  destruct (SAFE_FD_ISSET _ _); reflexivity.
Qed.

(** X12: uipc_read_task, run on its own, leaves its loop only when the
    running flag is clear: no turn changes the flag, and while it is set
    the task has not ended after any number of turns.  Once UIPC_Close has
    been called with the id that stands for all channels, the task ends
    with the cleanup the next time it is at the head of its loop, be it at
    once or after the turn in progress, and every channel of the table is
    Closed. *)
Theorem uipc_read_task_ends_only_when_stopped
    (turns : list (option (gset Z) * (nat -> acc_io))) (w : state) :
  (running w ≠ 0 → uipc_read_task turns w = None) ∧
  (∀ w0, w0 = UIPC_Close UIPC_CH_ID_ALL w ∨
         (∃ sel io, w0 = uipc_read_task_iter sel io
                           (UIPC_Close UIPC_CH_ID_ALL w)) →
     uipc_read_task turns w0 = Some (uipc_main_cleanup w0) ∧
     ∀ i, (i < UIPC_CH_NUM)%nat →
          srvfd (ch (uipc_main_cleanup w0) i) = UIPC_DISCONNECTED ∧
          fd (ch (uipc_main_cleanup w0) i) = UIPC_DISCONNECTED).
Proof.
  split.
  - revert w. induction turns as [|[sel io] rest IH]; intros w Hrun; simpl;
      apply Z.eqb_neq in Hrun; rewrite Hrun; [reflexivity|].
    apply IH. rewrite uipc_read_task_iter_running. now apply Z.eqb_neq.
  - intros w0 Hw0.
    assert (Hstop : running w0 = 0).
    { destruct Hw0 as [->|(sel & io & ->)];
        [|rewrite uipc_read_task_iter_running]; reflexivity. }
    split; [|apply uipc_main_cleanup_fields].
    destruct turns as [|[sel io] rest]; cbn [uipc_read_task];
      rewrite Hstop; reflexivity.
Qed.

Lemma uipc_read_task_ends_only_when_stopped_witness :
  uipc_read_task [(Some {[ 3 ]}, sample_accepts)]
                 (UIPC_Init 0 (3, 4) (fun _ => zero_chan) 0) = None.
Proof.
  assert (Hrun : running (UIPC_Init 0 (3, 4) (fun _ => zero_chan) 0) ≠ 0)
    by (vm_compute; discriminate).
  exact (proj1 (uipc_read_task_ends_only_when_stopped
                  [(Some {[ 3 ]}, sample_accepts)]
                  (UIPC_Init 0 (3, 4) (fun _ => zero_chan) 0)) Hrun).
Defined.


(** ** Close requests and the event loop *)

Lemma UIPC_Close_is_request (ch_id : nat) (w : state) :
  (ch_id < UIPC_CH_NUM)%nat → UIPC_Close ch_id w = uipc_close_locked ch_id w.
Proof.
  intros Hi. unfold UIPC_Close.
  destruct (Nat.eqb_spec ch_id UIPC_CH_ID_ALL) as [E|_]; [|reflexivity].
  unfold UIPC_CH_ID_ALL, UIPC_CH_NUM in *. lia.
Qed.

Lemma close_requests_fields (ch_id : nat) (w : state) (n : nat) :
  (ch_id < UIPC_CH_NUM)%nat →
  srvfd (ch w ch_id) ≠ UIPC_DISCONNECTED →
  let wn := Nat.iter n (UIPC_Close ch_id) w in
  srvfd (ch wn ch_id) = srvfd (ch w ch_id) ∧
  fd (ch wn ch_id) = fd (ch w ch_id) ∧
  cback (ch wn ch_id) = cback (ch w ch_id) ∧
  (∀ j, j ≠ ch_id → ch wn j = ch w j) ∧
  pipe wn = (pipe w + n)%nat ∧
  trace wn = trace w ++ repeat SysSendSignal n ∧
  ((0 < n)%nat → pending (ch wn ch_id) = true).
Proof.
  intros Hi Hs. cbv zeta. induction n as [|n IH].
  - cbn. rewrite app_nil_r. repeat split; auto; lia.
  - destruct IH as (Es & Ef & Ec & Eo & Ep & Et & _).
    rewrite Nat.iter_succ.
    set (wn := Nat.iter n (UIPC_Close ch_id) w) in *.
    rewrite UIPC_Close_is_request by exact Hi.
    destruct (uipc_close_locked_fields ch_id wn)
      as (Hch & Hoth & _ & _ & _ & _ & _ & Htr & Hpipe & Hfl).
    assert (Hp : present (srvfd (ch wn ch_id)) = true).
    { unfold present. rewrite Es. apply Z.eqb_neq in Hs. now rewrite Hs. }
    rewrite Hp in Htr, Hpipe, Hfl.
    destruct (Hch ch_id) as (A & B & C & _).
    repeat split; try congruence.
    + intros j Hj. rewrite (Hoth j Hj). now apply Eo.
    + lia.
    + rewrite Htr, Et, <- app_assoc. f_equal.
      change (opt_act true SysSendSignal) with (repeat SysSendSignal 1).
      rewrite <- repeat_app. f_equal. lia.
    + intros _. unfold pending. rewrite Hfl. apply pending_after_lor.
Qed.

Lemma uipc_check_fd_locked_closed (i : nat) (io : acc_io) (w : state) :
  srvfd (ch w i) = UIPC_DISCONNECTED → fd (ch w i) = UIPC_DISCONNECTED →
  fst (uipc_check_fd_locked i io w) = w.
Proof.
  intros Hs Hf. unfold uipc_check_fd_locked, check_rx.
  destruct (UIPC_CH_NUM <=? i)%nat; [reflexivity|].
  rewrite Hs, Hf. reflexivity.
Qed.

Lemma services_no_close (i j : nat) (s : Z) (t : list action) :
  Forall (services j s) t → List.filter (is_close_of i) t = [].
Proof.
  induction 1 as [|a t Ha _ IH]; [reflexivity|]. cbn. rewrite IH.
  destruct a; cbn in *; try reflexivity; try contradiction.
  destruct Ha as (_ & [-> | ->]); reflexivity.
Qed.

Lemma teardown_trace_closes (i j : nat) (c : tUIPC_CHAN) :
  length (List.filter (is_close_of i) (teardown_trace j c)) =
  if (Nat.eqb j i) && negb (cback c =? 0) then 1%nat else 0%nat.
Proof.
  unfold teardown_trace, opt_act.
  destruct (present (srvfd c)), (present (fd c)), (cback c =? 0);
    cbn; destruct (Nat.eqb j i); reflexivity.
Qed.

(** X13: however many times UIPC_Close is called for an open channel before
    the event loop runs, each call sends a wakeup byte, and the next turn
    of the loop tears the channel down once: afterwards the channel is
    Closed and not pending, its endpoints have been closed, and the turn
    has emitted exactly one Close event for it if a callback is registered
    and none otherwise. *)
Theorem repeated_close_requests_tear_down_once
    (k : nat) (ch_id : nat) (ready : gset Z) (io : nat -> acc_io) (w : state) :
  (ch_id < UIPC_CH_NUM)%nat →
  srvfd (ch w ch_id) ≠ UIPC_DISCONNECTED →
  let w1 := Nat.iter (S k) (UIPC_Close ch_id) w in
  size (read_set (after_select ready w1)) ≠ 0%nat →
  let w2 := uipc_read_task_iter (Some ready) io w1 in
  pipe w1 = (pipe w + S k)%nat ∧
  srvfd (ch w2 ch_id) = UIPC_DISCONNECTED ∧
  fd (ch w2 ch_id) = UIPC_DISCONNECTED ∧
  pending (ch w2 ch_id) = false ∧
  ∃ t, trace w2 = trace w1 ++ t ∧
       length (List.filter (is_close_of ch_id) t) =
         (if cback (ch w ch_id) =? 0 then 0%nat else 1%nat) ∧
       In (SysClose (srvfd (ch w ch_id))) t ∧
       (fd (ch w ch_id) ≠ UIPC_DISCONNECTED → In (SysClose (fd (ch w ch_id))) t).
Proof.
  intros Hi Hs w1 Hsize w2.
  destruct (close_requests_fields ch_id w (S k) Hi Hs)
    as (Es & Ef & Ec & Eo & Ep & _ & Epend).
  fold w1 in Es, Ef, Ec, Eo, Ep, Epend. specialize (Epend ltac:(lia)).
  split; [exact Ep|].
  subst w2. rewrite (uipc_read_task_iter_stages ready io w1 Hsize).
  set (ws := after_select ready w1).
  set (wd := uipc_check_interrupt_locked ws).
  assert (Hd : ch wd = ch w1 ∧
               ∃ td, trace wd = trace w1 ++ td ∧
                     List.filter (is_close_of ch_id) td = [] ∧
                     ∀ x, ¬ In (SysClose x) td).
  { subst wd. unfold uipc_check_interrupt_locked.
    destruct (SAFE_FD_ISSET _ _).
    - split; [reflexivity|]. exists [SysRecvSignal].
      repeat split; auto. intros x [E|[]]. discriminate.
    - split; [reflexivity|]. exists []. rewrite app_nil_r.
      repeat split; auto. }
  destruct Hd as (Hchd & td & Htd & Hfd & _).
  destruct (uipc_check_task_flags_locked_fields wd) as (Htt & _ & _ & Hcht).
  set (wt := uipc_check_task_flags_locked wd) in *.
  rewrite Hchd in Hcht.
  assert (Hpt : pending_teardowns wd = pending_teardowns w1)
    by (unfold pending_teardowns; now rewrite Hchd).
  rewrite Hpt in Htt.
  destruct (Hcht ch_id Hi) as (Ets & Etf & Etc & Etp).
  rewrite Epend in Ets, Etf.
  assert (HA : (UIPC_CH_ID_AV_AUDIO < UIPC_CH_NUM)%nat)
    by (unfold UIPC_CH_ID_AV_AUDIO, UIPC_CH_NUM; lia).
  assert (HC : (UIPC_CH_ID_AV_CTRL < UIPC_CH_NUM)%nat)
    by (unfold UIPC_CH_ID_AV_CTRL, UIPC_CH_NUM; lia).
  set (wa := fst (uipc_check_fd_locked UIPC_CH_ID_AV_AUDIO
                    (io UIPC_CH_ID_AV_AUDIO) wt)).
  set (wc := fst (uipc_check_fd_locked UIPC_CH_ID_AV_CTRL
                    (io UIPC_CH_ID_AV_CTRL) wa)).
  assert (Hrest : ch wc ch_id = ch wt ch_id ∧
                  ∃ tr, trace wc = trace wt ++ tr ∧
                        List.filter (is_close_of ch_id) tr = []).
  { destruct (uipc_check_fd_locked_fields UIPC_CH_ID_AV_AUDIO
                (io UIPC_CH_ID_AV_AUDIO) wt HA)
      as (Hoa & _ & _ & _ & _ & _ & _ & _ & _ & ta & Hta & Hfa).
    destruct (uipc_check_fd_locked_fields UIPC_CH_ID_AV_CTRL
                (io UIPC_CH_ID_AV_CTRL) wa HC)
      as (Hoc & _ & _ & _ & _ & _ & _ & _ & _ & tc & Htc & Hfc).
    fold wa in Hoa, Hta. fold wc in Hoc, Htc.
    destruct ch_id as [|[|]]; [| |unfold UIPC_CH_NUM in Hi; lia].
    - (* the control channel: the audio check leaves it alone *)
      assert (E : ch wa 0%nat = ch wt 0%nat) by (apply Hoa; discriminate).
      assert (Ewc : wc = wa).
      { apply uipc_check_fd_locked_closed;
          change UIPC_CH_ID_AV_CTRL with 0%nat; rewrite E; assumption. }
      rewrite Ewc. split; [exact E|].
      exists ta. split; [exact Hta|].
      eapply services_no_close; exact Hfa.
    - (* the audio channel: it is closed when its turn comes *)
      assert (Ewa : wa = wt).
      { apply uipc_check_fd_locked_closed; assumption. }
      rewrite Ewa in *. split; [apply Hoc; discriminate|].
      exists tc. split; [exact Htc|].
      eapply services_no_close; exact Hfc. }
  destruct Hrest as (Ew & tr & Htr & Hfr).
  rewrite Ew.
  split; [exact Ets|]. split; [exact Etf|]. split; [exact Etp|].
  exists (td ++ pending_teardowns w1 ++ tr).
  split; [rewrite Htr, Htt, Htd, <- !app_assoc; reflexivity|].
  assert (Hclose : In (SysClose (srvfd (ch w ch_id))) (pending_teardowns w1) ∧
            (fd (ch w ch_id) ≠ UIPC_DISCONNECTED →
             In (SysClose (fd (ch w ch_id))) (pending_teardowns w1))).
  { unfold pending_teardowns. split; [|intros Hf]; apply in_flat_map;
      exists ch_id; (split; [apply in_seq; lia|]); rewrite Epend;
      unfold teardown_trace, opt_act, present; rewrite Es, Ef.
    - apply Z.eqb_neq in Hs. rewrite Hs. cbn. now left.
    - apply Z.eqb_neq in Hf. rewrite Hf.
      destruct (srvfd (ch w ch_id) =? UIPC_DISCONNECTED); cbn; auto. }
  split; [|split].
  - rewrite !List.filter_app, !length_app, Hfd, Hfr. cbn [length].
    unfold pending_teardowns.
    change (seq 0 UIPC_CH_NUM) with [0%nat; 1%nat]. cbn [flat_map].
    rewrite app_nil_r, List.filter_app, length_app.
    assert (Hone : ∀ j, length (List.filter (is_close_of ch_id)
                (if pending (ch w1 j) then teardown_trace j (ch w1 j) else []))
              = if (Nat.eqb j ch_id) && pending (ch w1 j)
                   && negb (cback (ch w1 j) =? 0) then 1%nat else 0%nat).
    { intros j. destruct (pending (ch w1 j)).
      - rewrite teardown_trace_closes. now rewrite andb_true_r.
      - cbn. now rewrite andb_false_r. }
    rewrite !Hone.
    destruct ch_id as [|[|]]; [| |unfold UIPC_CH_NUM in Hi; lia];
      cbn [Nat.eqb andb]; rewrite Epend, Ec;
      destruct (cback (ch w _) =? 0); reflexivity.
  - apply in_or_app. right. apply in_or_app. left. apply Hclose.
  - intros Hf. apply in_or_app. right. apply in_or_app. left.
    now apply Hclose.
Qed.

Lemma repeated_close_requests_tear_down_once_witness :
  let w1 := Nat.iter 3 (UIPC_Close UIPC_CH_ID_AV_CTRL) st_connected in
  let w2 := uipc_read_task_iter (Some {[ 3 ]}) sample_accepts w1 in
  pipe w1 = (pipe st_connected + 3)%nat ∧
  srvfd (ch w2 UIPC_CH_ID_AV_CTRL) = UIPC_DISCONNECTED ∧
  fd (ch w2 UIPC_CH_ID_AV_CTRL) = UIPC_DISCONNECTED.
Proof.
  intros w1 w2.
  assert (Hs : srvfd (ch st_connected UIPC_CH_ID_AV_CTRL) ≠ UIPC_DISCONNECTED)
    by (vm_compute; discriminate).
  assert (Hsz : size (read_set (after_select {[ 3 ]} w1)) ≠ 0%nat)
    by (vm_compute; discriminate).
  destruct (repeated_close_requests_tear_down_once 2 UIPC_CH_ID_AV_CTRL
              {[ 3 ]} sample_accepts st_connected
              ltac:(vm_compute; lia) Hs Hsz) as (H1 & H2 & H3 & _).
  split; [exact H1|]. split; [exact H2 | exact H3].
Defined.

(** ** The ioctl requests *)

Lemma select_subset (nfds : Z) (s ready : gset Z) (d : Z) :
  d ∈ select nfds s ready → d ∈ s.
Proof.
  unfold select. rewrite elem_of_filter, elem_of_intersection. tauto.
Qed.

Lemma services_no_rx (i j : nat) (s : Z) (t : list action) :
  j ≠ i → Forall (services j s) t → Forall (no_rx_of i) t.
Proof.
  intros Hne H. eapply List.Forall_impl; [|exact H].
  intros a. destruct a; cbn; auto.
  intros (-> & _). destruct ev; auto.
Qed.

Lemma teardown_trace_no_rx (i j : nat) (c : tUIPC_CHAN) :
  Forall (no_rx_of i) (teardown_trace j c).
Proof.
  unfold teardown_trace, opt_act.
  destruct (present (srvfd c)), (present (fd c)), (negb (cback c =? 0));
    cbn; repeat constructor.
Qed.







(** X15: after the ioctl that takes the peer endpoint of a channel out of the
    active set, a turn of the event loop in which no connection comes in on
    that channel emits no RxDataReady event for it, whatever descriptors
    are ready. *)
Theorem detached_channel_gets_no_rx_event
    (ch_id : nat) (param : Z) (script : list fl_io)
    (sel : option (gset Z)) (io : nat -> acc_io) (w w1 : state) :
  (ch_id < UIPC_CH_NUM)%nat →
  UIPC_Ioctl ch_id UIPC_REG_REMOVE_ACTIVE_READSET param script w
    = Some (w1, false) →
  (∀ ready, sel = Some ready →
     SAFE_FD_ISSET (srvfd (ch w ch_id)) (read_set (after_select ready w1))
       = false) →
  ∃ t, trace (uipc_read_task_iter sel io w1) = trace w1 ++ t ∧
       ∀ cb, ¬ In (Callback cb ch_id UIPC_RX_DATA_READY_EVT) t.
Proof.
  intros Hi Hioctl Hsrv.
  assert (Hw1 : ch w1 = ch w ∧
                (fd (ch w ch_id) ≠ UIPC_DISCONNECTED →
                 fd (ch w ch_id) ∉ active_set w1)).
  { unfold UIPC_Ioctl in Hioctl.
    destruct (Z.eqb_spec (fd (ch w ch_id)) UIPC_DISCONNECTED) as [E|E];
      cbn in Hioctl; inversion Hioctl; subst; (split; [reflexivity|]).
    - congruence.
    - intros _. cbn. unfold FD_CLR.
      rewrite elem_of_difference, elem_of_singleton. tauto. }
  destruct Hw1 as (Hch1 & Hout).
  assert (Hfin : ∀ t, Forall (no_rx_of ch_id) t →
            ∀ cb, ¬ In (Callback cb ch_id UIPC_RX_DATA_READY_EVT) t).
  { intros t Hall cb Hin. rewrite List.Forall_forall in Hall.
    specialize (Hall _ Hin). cbn in Hall. congruence. }
  destruct sel as [ready|];
    [|exists []; split; [cbn; now rewrite app_nil_r | intros cb []]].
  specialize (Hsrv ready eq_refl).
  destruct (Nat.eq_dec (size (read_set (after_select ready w1))) 0%nat)
    as [Hz|Hnz].
  { rewrite (uipc_read_task_iter_idle ready io w1 Hz).
    exists []. split; [cbn; now rewrite app_nil_r | intros cb []]. }
  rewrite (uipc_read_task_iter_stages ready io w1 Hnz).
  set (ws := after_select ready w1) in *.
  set (wd := uipc_check_interrupt_locked ws).
  assert (Hd : ch wd = ch w1 ∧ read_set wd = read_set ws ∧
               ∃ td, trace wd = trace w1 ++ td ∧ Forall (no_rx_of ch_id) td).
  { subst wd. unfold uipc_check_interrupt_locked.
    destruct (SAFE_FD_ISSET (fst (signal_fds ws)) (read_set ws)).
    - split; [reflexivity|]. split; [reflexivity|].
      exists [SysRecvSignal]. split; [reflexivity|]. repeat constructor.
    - split; [reflexivity|]. split; [reflexivity|].
      exists []. rewrite app_nil_r. split; [reflexivity|]. constructor. }
  destruct Hd as (Hchd & Hrd & td & Htd & Hftd).
  destruct (uipc_check_task_flags_locked_fields wd) as (Htt & Hrt & _ & Hcht).
  set (wt := uipc_check_task_flags_locked wd) in *.
  rewrite Hchd, Hch1 in Hcht.
  assert (Hpt : Forall (no_rx_of ch_id) (pending_teardowns wd)).
  { unfold pending_teardowns. generalize (seq 0 UIPC_CH_NUM). intros l.
    induction l as [|j l IH]; cbn; [constructor|].
    apply Forall_app. split; [|exact IH].
    destruct (pending _); [apply teardown_trace_no_rx | constructor]. }
  assert (Hrs : ∀ x, x ≠ UIPC_DISCONNECTED → x = fd (ch w ch_id) →
                     SAFE_FD_ISSET x (read_set ws) = false).
  { intros x Hx ->. unfold SAFE_FD_ISSET, FD_ISSET.
    destruct (_ =? -1); [reflexivity|].
    apply bool_decide_eq_false. intros Hin.
    apply select_subset in Hin. now apply (Hout Hx). }
  assert (HA : (UIPC_CH_ID_AV_AUDIO < UIPC_CH_NUM)%nat)
    by (unfold UIPC_CH_ID_AV_AUDIO, UIPC_CH_NUM; lia).
  assert (HC : (UIPC_CH_ID_AV_CTRL < UIPC_CH_NUM)%nat)
    by (unfold UIPC_CH_ID_AV_CTRL, UIPC_CH_NUM; lia).
  (* servicing the detached channel itself does nothing *)
  assert (Hself : ∀ w0 io0,
            ch w0 ch_id = ch wt ch_id → read_set w0 = read_set ws →
            fst (uipc_check_fd_locked ch_id io0 w0) = w0).
  { intros w0 io0 E0 R0.
    destruct (Hcht ch_id Hi) as (Es & Ef & _).
    destruct (uipc_check_fd_locked_fields ch_id io0 w0 Hi)
      as (_ & _ & _ & _ & _ & _ & _ & Hno & _).
    rewrite Hno.
    - unfold check_rx, call_cback. cbn [fst]. rewrite E0, Ef, R0.
      destruct (pending (ch w ch_id)); [reflexivity|].
      destruct (Z.eq_dec (fd (ch w ch_id)) UIPC_DISCONNECTED) as [E|E].
      + rewrite E. reflexivity.
      + now rewrite (Hrs _ E eq_refl).
    - rewrite E0, Es, R0. destruct (pending (ch w ch_id)); [reflexivity|].
      exact Hsrv. }
  set (wa := fst (uipc_check_fd_locked UIPC_CH_ID_AV_AUDIO
                    (io UIPC_CH_ID_AV_AUDIO) wt)).
  set (wc := fst (uipc_check_fd_locked UIPC_CH_ID_AV_CTRL
                    (io UIPC_CH_ID_AV_CTRL) wa)).
  assert (Hrest : ∃ tr, trace wc = trace wt ++ tr ∧ Forall (no_rx_of ch_id) tr).
  { destruct (uipc_check_fd_locked_fields UIPC_CH_ID_AV_AUDIO
                (io UIPC_CH_ID_AV_AUDIO) wt HA)
      as (Hoa & _ & _ & _ & Hra & _ & _ & _ & _ & ta & Hta & Hfa).
    destruct (uipc_check_fd_locked_fields UIPC_CH_ID_AV_CTRL
                (io UIPC_CH_ID_AV_CTRL) wa HC)
      as (_ & _ & _ & _ & _ & _ & _ & _ & _ & tc & Htc & Hfc).
    fold wa in Hoa, Hra, Hta. fold wc in Htc.
    destruct ch_id as [|[|]]; [| |unfold UIPC_CH_NUM in Hi; lia].
    - assert (Ewc : wc = wa).
      { apply (Hself wa (io UIPC_CH_ID_AV_CTRL)).
        - apply Hoa. discriminate.
        - now rewrite Hra, Hrt. }
      rewrite Ewc. exists ta. split; [exact Hta|].
      eapply services_no_rx; [|exact Hfa]. discriminate.
    - assert (Ewa : wa = wt).
      { apply (Hself wt (io UIPC_CH_ID_AV_AUDIO)); [reflexivity | now rewrite Hrt]. }
      rewrite Ewa in *. exists tc. split; [exact Htc|].
      eapply services_no_rx; [|exact Hfc]. discriminate. }
  destruct Hrest as (tr & Htr & Hftr).
  exists (td ++ pending_teardowns wd ++ tr). split.
  - rewrite Htr, Htt, Htd, <- !app_assoc. reflexivity.
  - apply Hfin. apply Forall_app. split; [exact Hftd|].
    apply Forall_app. split; [exact Hpt | exact Hftr].
Qed.

Lemma detached_channel_gets_no_rx_event_witness :
  ∃ w1 t,
    UIPC_Ioctl UIPC_CH_ID_AV_CTRL UIPC_REG_REMOVE_ACTIVE_READSET 0 []
               st_connected = Some (w1, false) ∧
    trace (uipc_read_task_iter (Some {[ 7; 8 ]}) sample_accepts w1)
      = trace w1 ++ t ∧
    ∀ cb, ¬ In (Callback cb UIPC_CH_ID_AV_CTRL UIPC_RX_DATA_READY_EVT) t.
Proof.
  eexists.
  assert (Hio : UIPC_Ioctl UIPC_CH_ID_AV_CTRL UIPC_REG_REMOVE_ACTIVE_READSET 0 []
                  st_connected = Some (_, false)) by reflexivity.
  assert (Hsrv : ∀ ready, Some {[ 7; 8 ]} = Some ready →
            SAFE_FD_ISSET (srvfd (ch st_connected UIPC_CH_ID_AV_CTRL))
              (read_set (after_select ready
                 (uipc_wakeup_locked
                    (set_active_set
                       (FD_CLR (fd (ch st_connected UIPC_CH_ID_AV_CTRL))
                               (active_set st_connected)) st_connected))))
            = false)
    by (intros ready [= <-]; vm_compute; reflexivity).
  destruct (detached_channel_gets_no_rx_event UIPC_CH_ID_AV_CTRL 0 []
              (Some {[ 7; 8 ]}) sample_accepts st_connected _
              ltac:(vm_compute; lia) Hio Hsrv) as (t & Ht & Hno).
  exists t. split; [exact Hio|]. split; [exact Ht | exact Hno].
Defined.


(** ** More on the blocking read *)

Lemma read_loop_bounded (i : nat) (d len : Z) (script : list rd_io) :
  0 <= len <= INT_MAX →
  ∀ n w w' r,
    0 <= n <= len →
    read_loop i d len script n w = Some (w', r) →
    (∀ x c k, In (SysRecv x c k) (trace w') → k <= c) →
    0 <= r <= len.
Proof.
  intros Hlen. induction script as [|io rest IH]; intros n w w' r Hn; simpl;
    rewrite (to_int_small len) by lia.
  - destruct (Z.ltb_spec n len); [discriminate|].
    intros [= <- <-] _. rewrite to_uint32_small by (unfold INT_MAX in *; lia).
    lia.
  - destruct (Z.ltb_spec n len) as [Hless|Hge].
    2:{ intros [= <- <-] _.
        rewrite to_uint32_small by (unfold INT_MAX in *; lia). lia. }
    assert (Hsmall : to_uint32 n = n)
      by (apply to_uint32_small; unfold INT_MAX in *; lia).
    destruct (rd_poll io =? 0); [intros [= <- <-] _; lia|].
    destruct (rd_poll io <? 0); [intros [= <- <-] _; lia|].
    destruct (negb _); [intros [= <- <-] _; lia|].
    destruct (Z.eqb_spec (rd_recv io) 0); [intros [= <- <-] _; lia|].
    destruct (Z.ltb_spec (rd_recv io) 0); [intros [= <- <-] _; lia|].
    intros Hloop Hobey.
    assert (Hk : rd_recv io <= len - n).
    { destruct (read_loop_extends _ _ _ _ _ _ _ _ Hloop) as (t & Ht & _).
      rewrite <- (to_uint32_small (len - n)) by (unfold INT_MAX in *; lia).
      apply (Hobey d). rewrite Ht. apply in_or_app. left.
      cbn. apply in_or_app. right. now left. }
    rewrite to_int_small in Hloop by (unfold INT_MAX in *; lia).
    eapply IH; [|exact Hloop | exact Hobey]. lia.
Qed.

(** X16: UIPC_Read never returns more than it was asked for: for every
    length and every course of the read, if each recv returned no more
    than the count it was given, the result lies between 0 and the
    length. *)
Theorem UIPC_Read_result_is_bounded
    (ch_id : nat) (len : Z) (script : list rd_io) (w w' : state) (r : Z) :
  0 <= len < 2 ^ 32 →
  UIPC_Read ch_id len script w = Some (w', r) →
  (∀ x c k, In (SysRecv x c k) (trace w') → k <= c) →
  0 <= r <= len.
Proof.
  intros Hlen. unfold UIPC_Read.
  destruct (UIPC_CH_NUM <=? ch_id)%nat; [intros [= <- <-] _; lia|].
  destruct (_ =? UIPC_DISCONNECTED); [intros [= <- <-] _; lia|].
  destruct (Z.le_gt_cases len INT_MAX) as [Hs|Hbig].
  - apply read_loop_bounded; lia.
  - assert (Hneg : to_int len < 0).
    { unfold to_int, INT_MAX in *.
      replace (len + 2 ^ 31) with (len - 2 ^ 31 + 1 * 2 ^ 32) by lia.
      rewrite Z.mod_add by lia. rewrite Z.mod_small; lia. }
    destruct script; cbn [read_loop];
      (destruct (Z.ltb_spec 0 (to_int len)) as [|_]; [lia|]);
      intros [= <- <-] _;
      rewrite (to_uint32_small 0) by (unfold INT_MAX; lia); lia.
Qed.

Lemma UIPC_Read_result_is_bounded_witness :
  UIPC_Read UIPC_CH_ID_AV_CTRL 10 [mkRdIo 1 POLLIN 4; mkRdIo 0 0 0]
            st_fresh_peer = Some (emit (SysRecv 7 10 4) st_fresh_peer, 4) ∧
  0 <= 4 <= 10.
Proof.
  assert (H : UIPC_Read UIPC_CH_ID_AV_CTRL 10 [mkRdIo 1 POLLIN 4; mkRdIo 0 0 0]
                st_fresh_peer = Some (emit (SysRecv 7 10 4) st_fresh_peer, 4))
    by reflexivity.
  split; [exact H|].
  apply (UIPC_Read_result_is_bounded UIPC_CH_ID_AV_CTRL 10
           [mkRdIo 1 POLLIN 4; mkRdIo 0 0 0] st_fresh_peer _ 4
           ltac:(lia) H).
  intros x c k [Hin|[]]. inversion Hin. lia.
Defined.

(** X17: the two failures of the read loop end the read differently.  When
    poll fails, the read returns the bytes collected so far; when recv
    fails, it returns 0, whatever was collected before.  Neither requests a
    disconnect: the slot, the active set and the wakeup queue are as they
    were. *)
Theorem UIPC_Read_failures
    (ch_id : nat) (len : Z) (pre : list rd_io) (io : rd_io)
    (rest : list rd_io) (w : state) :
  (ch_id < UIPC_CH_NUM)%nat →
  fd (ch w ch_id) ≠ UIPC_DISCONNECTED →
  0 <= len <= INT_MAX →
  data_run len 0 pre → collected pre < len →
  let d := fd (ch w ch_id) in
  (rd_poll io < 0 →
   UIPC_Read ch_id len (pre ++ io :: rest) w =
     Some (emits (recv_trace d len 0 pre) w, collected pre)) ∧
  (0 < rd_poll io →
   Z.land (rd_revents io) (Z.lor POLLHUP POLLNVAL) = 0 →
   rd_recv io < 0 →
   UIPC_Read ch_id len (pre ++ io :: rest) w =
     Some (emits (recv_trace d len 0 pre ++
                  [SysRecv d (len - collected pre) (rd_recv io)]) w, 0)).
Proof.
  intros Hlt Hfd Hlen Hrun Hless d.
  destruct (data_run_bounds len 0 pre ltac:(lia) Hrun) as [H0 Hle].
  assert (Hguard : (UIPC_CH_NUM <=? ch_id)%nat = false)
    by (apply Nat.leb_gt; exact Hlt).
  assert (Hopen : (fd (ch w ch_id) =? UIPC_DISCONNECTED) = false)
    by (apply Z.eqb_neq; exact Hfd).
  assert (Hstart : UIPC_Read ch_id len (pre ++ io :: rest) w =
            read_loop ch_id d len (io :: rest) (collected pre)
                      (emits (recv_trace d len 0 pre) w)).
  { unfold UIPC_Read. rewrite Hguard, Hopen. fold d.
    rewrite read_loop_data_run by (auto; lia). now rewrite Z.add_0_l. }
  rewrite Hstart. cbn [read_loop]. rewrite (to_int_small len) by lia.
  destruct (Z.ltb_spec (collected pre) len) as [_|]; [|lia].
  split.
  - intros Hp.
    destruct (Z.eqb_spec (rd_poll io) 0) as [E|_]; [lia|].
    destruct (Z.ltb_spec (rd_poll io) 0) as [_|E]; [|lia].
    rewrite to_uint32_small by lia. reflexivity.
  - intros Hp Hrev Hrecv.
    destruct (Z.eqb_spec (rd_poll io) 0) as [E|_]; [lia|].
    destruct (Z.ltb_spec (rd_poll io) 0) as [E|_]; [lia|].
    rewrite Hrev. cbn [negb Z.eqb].
    destruct (Z.eqb_spec (rd_recv io) 0) as [E|_]; [lia|].
    destruct (Z.ltb_spec (rd_recv io) 0) as [_|E]; [|lia].
    rewrite to_uint32_small by lia.
    unfold emits, emit. cbn. now rewrite <- app_assoc.
Qed.

Lemma UIPC_Read_failures_witness :
  UIPC_Read UIPC_CH_ID_AV_CTRL 10
            ([mkRdIo 1 POLLIN 4] ++ mkRdIo (-1) 0 0 :: []) st_connected
    = Some (emits [SysRecv 7 10 4] st_connected, 4) ∧
  UIPC_Read UIPC_CH_ID_AV_CTRL 10
            ([mkRdIo 1 POLLIN 4] ++ mkRdIo 1 POLLIN (-1) :: []) st_connected
    = Some (emits [SysRecv 7 10 4; SysRecv 7 6 (-1)] st_connected, 0).
Proof.
  assert (Hrun : data_run 10 0 [mkRdIo 1 POLLIN 4]) by solve_run.
  split.
  - destruct (UIPC_Read_failures UIPC_CH_ID_AV_CTRL 10 [mkRdIo 1 POLLIN 4]
                (mkRdIo (-1) 0 0) [] st_connected
                ltac:(vm_compute; lia) ltac:(vm_compute; discriminate)
                ltac:(vm_compute; split; discriminate) Hrun
                ltac:(simpl; lia)) as [H _].
    exact (H ltac:(simpl; lia)).
  - destruct (UIPC_Read_failures UIPC_CH_ID_AV_CTRL 10 [mkRdIo 1 POLLIN 4]
                (mkRdIo 1 POLLIN (-1)) [] st_connected
                ltac:(vm_compute; lia) ltac:(vm_compute; discriminate)
                ltac:(vm_compute; split; discriminate) Hrun
                ltac:(simpl; lia)) as [_ H].
    exact (H ltac:(simpl; lia) eq_refl ltac:(simpl; lia)).
Defined.

(** ** The flush *)

Lemma stops_b_spec (io : fl_io) : stops_b io = true ↔ stops io.
Proof.
  unfold stops_b, stops. rewrite orb_true_iff, Z.leb_le, negb_true_iff,
    Z.eqb_neq. tauto.
Qed.

Lemma flush_loop_reads (d : Z) (script : list fl_io) :
  Exists stops script →
  ∀ w, flush_loop d script w =
       Some (emits (repeat (SysRead d UIPC_FLUSH_BUFFER_SIZE)
                           (data_polls script)) w).
Proof.
  induction 1 as [io rest Hstop | io rest _ IH]; intros w; cbn [flush_loop data_polls].
  - apply stops_b_spec in Hstop. rewrite Hstop.
    unfold stops_b in Hstop. apply orb_true_iff in Hstop.
    rewrite emits_nil.
    destruct (Z.eqb_spec (fl_poll io) 0); [reflexivity|].
    destruct (Z.ltb_spec (fl_poll io) 0); [reflexivity|].
    destruct Hstop as [Hp|Hr]; [apply Z.leb_le in Hp; lia|].
    now rewrite Hr.
  - destruct (stops_b io) eqn:Hs.
    + unfold stops_b in Hs. apply orb_true_iff in Hs. rewrite emits_nil.
      destruct (Z.eqb_spec (fl_poll io) 0); [reflexivity|].
      destruct (Z.ltb_spec (fl_poll io) 0); [reflexivity|].
      destruct Hs as [Hp|Hr]; [apply Z.leb_le in Hp; lia|].
      now rewrite Hr.
    + unfold stops_b in Hs. apply orb_false_iff in Hs. destruct Hs as [Hp Hr].
      apply Z.leb_gt in Hp.
      destruct (Z.eqb_spec (fl_poll io) 0); [lia|].
      destruct (Z.ltb_spec (fl_poll io) 0); [lia|].
      rewrite Hr. rewrite IH. cbn [repeat]. now rewrite emits_cons.
Qed.

(** X18: the flush request of UIPC_Ioctl changes nothing but the trace.  On a
    channel of the table with a peer endpoint it reads the flush buffer
    size from the peer once for every poll that finds data, up to the
    first poll that times out, fails or reports an error or hangup, and
    then returns.  On a channel without peer endpoint, and for an id
    outside the table, it does nothing at all. *)
Theorem flush_reads_until_quiet
    (ch_id : nat) (param : Z) (script : list fl_io) (w : state) :
  ((ch_id < UIPC_CH_NUM)%nat → fd (ch w ch_id) ≠ UIPC_DISCONNECTED →
   Exists stops script →
   UIPC_Ioctl ch_id UIPC_REQ_RX_FLUSH param script w =
     Some (emits (repeat (SysRead (fd (ch w ch_id)) UIPC_FLUSH_BUFFER_SIZE)
                         (data_polls script)) w, false)) ∧
  ((UIPC_CH_NUM <= ch_id)%nat ∨ fd (ch w ch_id) = UIPC_DISCONNECTED →
   UIPC_Ioctl ch_id UIPC_REQ_RX_FLUSH param script w = Some (w, false)).
Proof.
  unfold UIPC_Ioctl, uipc_flush_locked, uipc_flush_ch_locked. split.
  - intros Hi Hfd Hex.
    destruct (Nat.leb_spec UIPC_CH_NUM ch_id) as [Hge|_]; [lia|].
    apply Z.eqb_neq in Hfd.
    destruct (Nat.eqb_spec ch_id UIPC_CH_ID_AV_CTRL) as [->|Hc].
    { rewrite Hfd, flush_loop_reads by exact Hex. reflexivity. }
    destruct (Nat.eqb_spec ch_id UIPC_CH_ID_AV_AUDIO) as [->|Ha].
    { rewrite Hfd, flush_loop_reads by exact Hex. reflexivity. }
    unfold UIPC_CH_ID_AV_CTRL, UIPC_CH_ID_AV_AUDIO, UIPC_CH_NUM in *. lia.
  - intros [Hge|Hfd].
    + apply Nat.leb_le in Hge. now rewrite Hge.
    + destruct (UIPC_CH_NUM <=? ch_id)%nat; [reflexivity|].
      destruct (Nat.eqb_spec ch_id UIPC_CH_ID_AV_CTRL) as [->|Hc].
      { now rewrite Hfd. }
      destruct (Nat.eqb_spec ch_id UIPC_CH_ID_AV_AUDIO) as [->|Ha].
      { now rewrite Hfd. }
      reflexivity.
Qed.

Lemma flush_reads_until_quiet_witness :
  UIPC_Ioctl UIPC_CH_ID_AV_CTRL UIPC_REQ_RX_FLUSH 0
             [mkFlIo 1 POLLIN; mkFlIo 1 POLLIN; mkFlIo 0 0] st_connected
  = Some (emits [SysRead 7 1024; SysRead 7 1024] st_connected, false).
Proof.
  apply (proj1 (flush_reads_until_quiet UIPC_CH_ID_AV_CTRL 0
                  [mkFlIo 1 POLLIN; mkFlIo 1 POLLIN; mkFlIo 0 0] st_connected)).
  - vm_compute; lia.
  - vm_compute; discriminate.
  - apply Exists_cons_tl, Exists_cons_tl, Exists_cons_hd. left. simpl. lia.
Defined.
